(** * MBOX to EML converter: shallow embedding and specification checks

    Sources: [mbox_to_eml_converter.py] (command-line converter) and
    [mbox_to_eml_gui.py] (Tkinter batch tool).

    Python strings are sequences of Unicode code points; they are modelled as
    [list Z].  Python ints (lengths, configuration values) are [Z]; message
    indices produced by [enumerate] are [nat]. *)

From Stdlib Require Import ZArith List Bool String Ascii Lia.
From Stdlib Require Import DecimalNat Permutation Sorted.
Import ListNotations.
Local Open Scope Z_scope.

(* ------------------------------------------------------------------ *)
(** ** Python strings *)

Definition pystr := list Z.

(** Literal helper: an ASCII Rocq string as a list of code points. *)
Definition lit (s : string) : pystr :=
  map (fun a => Z.of_nat (nat_of_ascii a)) (list_ascii_of_string s).

Definition str_eqb (a b : pystr) : bool :=
  if list_eq_dec Z.eq_dec a b then true else false.

(** [str.isspace] / the [\s] class of Python's [re] on [str] patterns:
    the Unicode whitespace code points. *)
Definition is_space (c : Z) : bool :=
  ((9 <=? c) && (c <=? 13)) || ((28 <=? c) && (c <=? 32)) ||
  (c =? 133) || (c =? 160) || (c =? 5760) ||
  ((8192 <=? c) && (c <=? 8202)) || (c =? 8232) || (c =? 8233) ||
  (c =? 8239) || (c =? 8287) || (c =? 12288).

(** [str.strip()] with no argument. *)
Fixpoint lstrip (s : pystr) : pystr :=
  match s with
  | [] => []
  | c :: r => if is_space c then lstrip r else s
  end.

Definition py_strip (s : pystr) : pystr := rev (lstrip (rev (lstrip s))).

(** [s[:k]]: a negative bound counts from the end, both clamp at 0. *)
Definition py_slice_to {A} (s : list A) (k : Z) : list A :=
  if 0 <=? k then firstn (Z.to_nat k) s
  else firstn (Z.to_nat (Z.of_nat (List.length s) + k)) s.

(* ------------------------------------------------------------------ *)
(** ** [sanitize_filename] (mbox_to_eml_converter.py, lines 36-56) *)

(** The character class of the raw regex on line 48: its members are
    < > : (double quote) / | ? *.  Inside the class the two characters
    backslash-bar are an escaped bar, so the class has no backslash. *)
Definition is_cli_bad (c : Z) : bool :=
  (c =? 60) || (c =? 62) || (c =? 58) || (c =? 34) || (c =? 47) ||
  (c =? 124) || (c =? 63) || (c =? 42).

(** [[\x00-\x1f]] *)
Definition is_ctrl (c : Z) : bool := (0 <=? c) && (c <=? 31).

Definition sanitize_filename (filename : pystr) (max_length : Z) : pystr :=
  let f1 := map (fun c => if is_cli_bad c then 95 else c) filename in
  let f2 := filter (fun c => negb (is_ctrl c)) f1 in
  let f3 := py_strip f2 in
  let f4 := if Z.of_nat (List.length f3) >? max_length
            then py_slice_to f3 (max_length - 4) ++ lit "..."
            else f3 in
  match f4 with
  | [] => lit "unnamed_email"
  | _ => f4
  end.

(* ------------------------------------------------------------------ *)
(** ** [MboxToEmlBatchGUI.sanitize] (mbox_to_eml_gui.py, lines 98-101) *)

(** The character class of the raw regex on line 99: < > : (double quote)
    / (backslash) | ? *; there the doubled backslash is a backslash. *)
Definition is_gui_bad (c : Z) : bool :=
  (c =? 60) || (c =? 62) || (c =? 58) || (c =? 34) || (c =? 47) ||
  (c =? 92) || (c =? 124) || (c =? 63) || (c =? 42).

(** [re.sub(r'\s+', ' ', text)]; [in_ws] records that the previous code
    point belonged to a whitespace run already replaced by one space. *)
Fixpoint collapse_ws (in_ws : bool) (s : pystr) : pystr :=
  match s with
  | [] => []
  | c :: r =>
      if is_space c
      then if in_ws then collapse_ws true r else 32 :: collapse_ws true r
      else c :: collapse_ws false r
  end.

Definition gui_sanitize (text : pystr) (max_len : Z) : pystr :=
  let t1 := map (fun c => if is_gui_bad c then 95 else c) text in
  let t2 := py_strip (collapse_ws false t1) in
  match py_slice_to t2 max_len with
  | [] => lit "No_Subject"
  | r => r
  end.

(* ------------------------------------------------------------------ *)
(** ** Batch partitioner (mbox_to_eml_gui.py, lines 150-158)

    [bs] is the message count limit, [maxb] the byte limit
    ([maxb = mb*1024*1024] in [run]); the files come in the order of the
    sorted [glob] listing.  Sizes are [st_size], hence non-negative. *)

Record eml_file := { fname : pystr; fsize : N }.

Fixpoint partition_loop (bs maxb : Z) (files : list eml_file)
    (batches : list (list eml_file)) (cur : list eml_file) (cur_size : Z)
    : list (list eml_file) :=
  match files with
  | [] => match cur with [] => batches | _ => batches ++ [cur] end
  | f :: rest =>
      let sz := Z.of_N (fsize f) in
      if (bs <=? Z.of_nat (List.length cur)) || (maxb <? cur_size + sz)
      then partition_loop bs maxb rest (batches ++ [cur]) [f] (0 + sz)
      else partition_loop bs maxb rest batches (cur ++ [f]) (cur_size + sz)
  end.

Definition make_batches (bs maxb : Z) (files : list eml_file) :=
  partition_loop bs maxb files [] [] 0.

Definition gui_batches (bs mb : Z) (sorted_files : list eml_file) :=
  make_batches bs (mb * 1024 * 1024) sorted_files.

Definition batch_size (b : list eml_file) : Z :=
  fold_right (fun f acc => Z.of_N (fsize f) + acc) 0 b.

(* ------------------------------------------------------------------ *)
(** ** Decimal formatting: [str(n)] and the format spec [{n:0wd}] *)

Fixpoint uint_digits (u : Decimal.uint) : pystr :=
  match u with
  | Decimal.Nil => []
  | Decimal.D0 r => 48 :: uint_digits r
  | Decimal.D1 r => 49 :: uint_digits r
  | Decimal.D2 r => 50 :: uint_digits r
  | Decimal.D3 r => 51 :: uint_digits r
  | Decimal.D4 r => 52 :: uint_digits r
  | Decimal.D5 r => 53 :: uint_digits r
  | Decimal.D6 r => 54 :: uint_digits r
  | Decimal.D7 r => 55 :: uint_digits r
  | Decimal.D8 r => 56 :: uint_digits r
  | Decimal.D9 r => 57 :: uint_digits r
  end.

Definition py_str_nat (n : nat) : pystr := uint_digits (Nat.to_uint n).

Definition zpad (w n : nat) : pystr :=
  let d := py_str_nat n in repeat 48 (w - List.length d)%nat ++ d.

(* ------------------------------------------------------------------ *)
(** ** Messages

    [msg.get(name, default)] returns the header as a [str], or, under the
    compat32 policy of [mailbox.mbox], an [email.header.Header] object when
    the raw header holds non-ASCII bytes ([HObj]); [re] functions raise a
    [TypeError] on the latter.  [msg_flat] is the outcome of
    [Generator(f).flatten(message)]: the text written, or the prefix written
    before it raised. *)

Inductive hval := HStr (s : pystr) | HObj.

Definition msg_get (h : option hval) (default : pystr) : hval :=
  match h with Some v => v | None => HStr default end.

Inductive flat_result := Flattened (text : pystr) | FlattenFails (written : pystr).

Record message := {
  msg_subject : option hval;
  msg_from : option hval;
  msg_flat : flat_result
}.

(** The environment: the non-ASCII part of the Unicode [\w] class of [re],
    and whether [open(p, 'w')] and [mkdir] succeed at a path (permissions,
    disk space). *)
Record env := {
  uword : Z -> bool;
  can_open : pystr -> bool;
  can_mkdir : pystr -> bool
}.

(* ------------------------------------------------------------------ *)
(** ** [re.search(r'[\w\.-]+@[\w\.-]+', sender)] *)

Definition ascii_alnum (c : Z) : bool :=
  ((48 <=? c) && (c <=? 57)) || ((65 <=? c) && (c <=? 90)) ||
  ((97 <=? c) && (c <=? 122)).

Definition word_char (uw : Z -> bool) (c : Z) : bool :=
  if c <? 128 then ascii_alnum c || (c =? 95) else uw c.

Definition email_class (uw : Z -> bool) (c : Z) : bool :=
  word_char uw c || (c =? 46) || (c =? 45).

Fixpoint span (p : Z -> bool) (s : pystr) : pystr * pystr :=
  match s with
  | [] => ([], [])
  | c :: r => if p c then let (a, b) := span p r in (c :: a, b) else ([], s)
  end.

(** Leftmost match.  At a start position the first [[\w.-]+] can only be
    followed by [@] at the end of its maximal run ([@] is outside the
    class), so backtracking never finds a shorter match; the second run is
    greedy. *)
Fixpoint email_search (uw : Z -> bool) (s : pystr) : option pystr :=
  match s with
  | [] => None
  | _ :: r =>
      match span (email_class uw) s with
      | ((_ :: _) as run, at_sign :: rest) =>
          if at_sign =? 64 then
            match fst (span (email_class uw) rest) with
            | [] => email_search uw r
            | run2 => Some (run ++ [64] ++ run2)
            end
          else email_search uw r
      | _ => email_search uw r
      end
  end.

Definition sender_name (uw : Z -> bool) (sender : pystr) : pystr :=
  match email_search uw sender with Some m => m | None => sender end.

(* ------------------------------------------------------------------ *)
(** ** Output directory contents

    [dirs] are existing directories, [files] existing files with their
    text; [os.path.exists] holds for both. *)

Record fsys := { dirs : list pystr; files : list (pystr * pystr) }.

Definition entries (fs : fsys) : list pystr := dirs fs ++ map fst (files fs).

Definition path_exists (fs : fsys) (p : pystr) : bool :=
  existsb (str_eqb p) (entries fs).

(** [open(p, 'w')] creates or truncates [p]; the text is then written. *)
Definition set_file (fs : fsys) (p text : pystr) : fsys :=
  {| dirs := dirs fs;
     files := (p, text) :: filter (fun e => negb (str_eqb (fst e) p)) (files fs) |}.

Definition lookup_file (fs : fsys) (p : pystr) : option pystr :=
  option_map snd (find (fun e => str_eqb (fst e) p) (files fs)).

(** [Path(d).mkdir(parents=True, exist_ok=True)] (and [exist_ok=True]
    alone): an existing directory is accepted, an existing non-directory
    raises [FileExistsError], otherwise the directory is created if the
    environment allows it. *)
Definition mkdir_exist_ok (e : env) (fs : fsys) (d : pystr) : option fsys :=
  if existsb (str_eqb d) (dirs fs) then Some fs
  else if path_exists fs d then None
  else if can_mkdir e d then Some {| dirs := d :: dirs fs; files := files fs |}
  else None.

(** [os.path.join(d, f)] (posixpath). *)
Definition join_prefix (d : pystr) : pystr :=
  match rev d with
  | [] => []
  | c :: _ => if c =? 47 then d else d ++ [47]
  end.

Definition join (d f : pystr) : pystr :=
  match f with
  | c :: _ => if c =? 47 then f else join_prefix d ++ f
  | [] => join_prefix d ++ f
  end.

(* ------------------------------------------------------------------ *)
(** ** [get_safe_filename] (mbox_to_eml_converter.py, lines 58-90) *)

(** Candidate file names: [base.eml], then [base_1.eml], [base_2.eml], ... *)
Definition cand (base : pystr) (counter : nat) : pystr :=
  match counter with
  | O => base ++ lit ".eml"
  | S _ => base ++ [95] ++ py_str_nat counter ++ lit ".eml"
  end.

(** The [while os.path.exists(filepath)] loop.  Python has no bound; the
    fuel given by [get_safe_filename] exceeds the number of existing entries,
    and [probe_some] below shows it is never exhausted. *)
Fixpoint probe (fs : fsys) (d base : pystr) (counter fuel : nat) : option pystr :=
  match fuel with
  | O => None
  | S fuel' =>
      let p := join d (cand base counter) in
      if path_exists fs p then probe fs d base (S counter) fuel' else Some p
  end.

Definition base_name (e : env) (subject sender : pystr) (index : nat) : pystr :=
  zpad 4 index ++ [95] ++ sanitize_filename subject 100 ++ [95] ++
  sanitize_filename (sender_name (uword e) sender) 100.

(** [None]: the function raises (a [Header] object given to [re]). *)
Definition get_safe_filename (e : env) (msg : message) (index : nat)
    (output_dir : pystr) (fs : fsys) : option pystr :=
  match msg_get (msg_subject msg) (lit "No Subject"),
        msg_get (msg_from msg) (lit "Unknown Sender") with
  | HStr subject, HStr sender =>
      probe fs output_dir (base_name e subject sender index) 0
            (S (List.length (entries fs)))
  | _, _ => None
  end.

(* ------------------------------------------------------------------ *)
(** ** [convert_mbox_to_eml] (mbox_to_eml_converter.py, lines 92-159)

    The loop state holds the directory contents, the three counters, and
    the trace of paths opened for writing.  Progress printing is not
    modelled (it is assumed not to raise). *)

Record cstate := {
  st_fs : fsys;
  st_ok : nat;
  st_err : nat;
  st_total : nat;
  st_opened : list pystr
}.

(** One iteration of the [for index, message in enumerate(mbox, 1)] body. *)
Definition convert_step (e : env) (d : pystr) (index : nat) (msg : message)
    (st : cstate) : cstate :=
  let fs := st_fs st in
  match get_safe_filename e msg index d fs with
  | None =>
      {| st_fs := fs; st_ok := st_ok st; st_err := S (st_err st);
         st_total := index; st_opened := st_opened st |}
  | Some p =>
      if can_open e p then
        match msg_flat msg with
        | Flattened text =>
            {| st_fs := set_file fs p text; st_ok := S (st_ok st);
               st_err := st_err st; st_total := index;
               st_opened := st_opened st ++ [p] |}
        | FlattenFails written =>
            {| st_fs := set_file fs p written; st_ok := st_ok st;
               st_err := S (st_err st); st_total := index;
               st_opened := st_opened st ++ [p] |}
        end
      else
        {| st_fs := fs; st_ok := st_ok st; st_err := S (st_err st);
           st_total := index; st_opened := st_opened st |}
  end.

Fixpoint convert_loop (e : env) (d : pystr) (ms : list message) (index : nat)
    (st : cstate) : cstate :=
  match ms with
  | [] => st
  | m :: r => convert_loop e d r (S index) (convert_step e d index m st)
  end.

(** The archive: missing path, a file [mailbox] fails to read, or the
    sequence of messages it yields. *)
Inductive archive :=
  | ArchiveMissing
  | ArchiveUnreadable
  | Mbox (ms : list message).

Inductive py_exn := FileNotFoundError | OSError | RuntimeError.

Inductive conv_result :=
  | Report (ok err total : nat) (fs : fsys) (opened : list pystr)
  | Raised (ex : py_exn) (fs : fsys).

Definition convert_mbox_to_eml (e : env) (a : archive) (output_dir : pystr)
    (fs : fsys) : conv_result :=
  match a with
  | ArchiveMissing => Raised FileNotFoundError fs
  | _ =>
      match mkdir_exist_ok e fs output_dir with
      | None => Raised OSError fs
      | Some fs1 =>
          match a with
          | Mbox ms =>
              let st := convert_loop e output_dir ms 1
                          {| st_fs := fs1; st_ok := 0; st_err := 0;
                             st_total := 0; st_opened := [] |} in
              Report (st_ok st) (st_err st) (st_total st) (st_fs st) (st_opened st)
          | _ => Raised RuntimeError fs1
          end
      end
  end.

(** ** [main]'s exit code (lines 193-213) *)
Definition main_exit (r : conv_result) : Z :=
  match r with
  | Report ok err _ _ _ =>
      if Nat.eqb err 0 then 0 else if Nat.ltb 0 ok then 1 else 2
  | Raised _ _ => 2
  end.

(* ------------------------------------------------------------------ *)
(** ** Step 1 of [MboxToEmlBatchGUI.run] (mbox_to_eml_gui.py, lines 120-143)

    [decode] is [decode_subject] (it rests on [email.header.decode_header]);
    exceptions inside the loop are not caught and end [run]. *)

Inductive gui_result := GuiStopped (fs : fsys) | GuiRaised (fs : fsys) | GuiDone (fs : fsys).

Fixpoint gui_convert_loop (e : env) (decode : hval -> pystr) (eml_dir : pystr)
    (ms : list message) (i : nat) (fs : fsys) : gui_result :=
  match ms with
  | [] => GuiDone fs
  | m :: r =>
      let subj := decode (msg_get (msg_subject m) (lit "No_Subject")) in
      let path := join eml_dir (zpad 5 i ++ [95] ++ gui_sanitize subj 50 ++ lit ".eml") in
      if can_open e path then
        match msg_flat m with
        | Flattened text => gui_convert_loop e decode eml_dir r (S i) (set_file fs path text)
        | FlattenFails written => GuiRaised (set_file fs path written)
        end
      else GuiRaised fs
  end.

(** [mbox_file.exists()] has been checked; [ms] are the archive's messages. *)
Definition gui_convert (e : env) (decode : hval -> pystr) (out_dir : pystr)
    (ms : list message) (fs : fsys) : gui_result :=
  match mkdir_exist_ok e fs out_dir with
  | None => GuiStopped fs
  | Some fs1 =>
      let eml_dir := join out_dir (lit "all_eml") in
      match mkdir_exist_ok e fs1 eml_dir with
      | None => GuiRaised fs1
      | Some fs2 => gui_convert_loop e decode eml_dir ms 1 fs2
      end
  end.

(** [total = i] (line 144): after [for i, msg in enumerate(mbox, 1)] the
    name [i] holds the last index, and is unbound ([None]) when the loop
    body never ran; reading it then raises [UnboundLocalError]. *)
Fixpoint enum_last {A} (xs : list A) (i : nat) (last : option nat) : option nat :=
  match xs with
  | [] => last
  | _ :: r => enum_last r (S i) (Some i)
  end.

Definition gui_total (ms : list message) : option nat := enum_last ms 1 None.

(* ------------------------------------------------------------------ *)
(** ** Steps 2 and 3 of [MboxToEmlBatchGUI.run] (lines 147-170)

    [eml_dir.glob] yields the [.eml] entries in directory order; [sorted]
    with [key=st_size] is a stable sort, here an insertion sort that puts
    a file after every file of the same size met before it. *)

Fixpoint insert_by_size (f : eml_file) (l : list eml_file) : list eml_file :=
  match l with
  | [] => [f]
  | g :: r => if (fsize f <? fsize g)%N then f :: l else g :: insert_by_size f r
  end.

Definition sort_by_size (l : list eml_file) : list eml_file :=
  fold_left (fun acc f => insert_by_size f acc) l [].

(** The folder name [batch_{idx:03d}_{len(b)}msg] (an f-string). *)
Definition batch_dir_name (idx : nat) (b : list eml_file) : pystr :=
  lit "batch_" ++ zpad 3 idx ++ [95] ++ py_str_nat (List.length b) ++ lit "msg".

(** The list [batch_dirs] built by the loop [for idx, b in enumerate(batches, 1)]. *)
Fixpoint batch_dirs (out_dir : pystr) (batches : list (list eml_file)) (idx : nat)
    : list pystr :=
  match batches with
  | [] => []
  | b :: r => join out_dir (batch_dir_name idx b) :: batch_dirs out_dir r (S idx)
  end.

(* ------------------------------------------------------------------ *)
(** ** [simple_mbox_to_eml] (mbox_to_eml_converter.py, lines 219-250)

    [mailbox.mbox(path)] creates a missing archive as an empty file (its
    [create] flag defaults to true, and it opens the path with [wb+]); a
    missing archive thus has no messages.  [as_str m] is the outcome of
    [f.write(str(message))] on a file opened with the locale encoding: the
    text written, or what was written before [str] or the encoder raised.
    Nothing in the body is caught. *)

(** [[a-zA-Z0-9_-]] *)
Definition is_simple_keep (c : Z) : bool := ascii_alnum c || (c =? 95) || (c =? 45).

(** [re.sub(r'[^a-zA-Z0-9_-]', '_', subject)[:30]] *)
Definition clean_subject (subject : pystr) : pystr :=
  py_slice_to (map (fun c => if is_simple_keep c then c else 95) subject) 30.

(** The file name [{i:04d}_{clean_subject}.eml] (an f-string). *)
Definition simple_filename (i : nat) (subject : pystr) : pystr :=
  zpad 4 i ++ [95] ++ clean_subject subject ++ lit ".eml".

Inductive simple_exn :=
  | MkdirError | MboxError | HeaderTypeError | OpenError | WriteError | UnboundLocalError.

(** [SimpleOk fs i]: finished, with the value of the loop variable [i]. *)
Inductive simple_result :=
  | SimpleOk (fs : fsys) (i : option nat)
  | SimpleRaised (ex : simple_exn) (fs : fsys).

Fixpoint simple_loop (e : env) (as_str : message -> flat_result) (d : pystr)
    (ms : list message) (i : nat) (last : option nat) (fs : fsys) : simple_result :=
  match ms with
  | [] => SimpleOk fs last
  | m :: r =>
      match msg_get (msg_subject m) (lit "No_Subject") with
      | HObj => SimpleRaised HeaderTypeError fs
      | HStr subject =>
          let p := join d (simple_filename i subject) in
          if can_open e p then
            match as_str m with
            | Flattened text => simple_loop e as_str d r (S i) (Some i) (set_file fs p text)
            | FlattenFails written => SimpleRaised WriteError (set_file fs p written)
            end
          else SimpleRaised OpenError fs
      end
  end.

(** [mailbox.mbox(mbox_path)] (line 235): the messages of an existing
    archive; a missing one is created empty, unless the path now names
    something (the directory just made) or cannot be opened for writing,
    where [open] raises; reading an unreadable archive raises. *)
Definition open_mbox (e : env) (mbox_path : pystr) (a : archive) (fs : fsys)
    : option (list message * fsys) :=
  match a with
  | Mbox ms => Some (ms, fs)
  | ArchiveUnreadable => None
  | ArchiveMissing =>
      if path_exists fs mbox_path then None
      else if can_open e mbox_path then Some ([], set_file fs mbox_path [])
      else None
  end.

(** The final [print] reads [i]. *)
Definition simple_mbox_to_eml (e : env) (as_str : message -> flat_result)
    (mbox_path : pystr) (a : archive) (output_dir : pystr) (fs : fsys)
    : simple_result :=
  match mkdir_exist_ok e fs output_dir with
  | None => SimpleRaised MkdirError fs
  | Some fs1 =>
      match open_mbox e mbox_path a fs1 with
      | None => SimpleRaised MboxError fs1
      | Some (ms, fs2) =>
          match simple_loop e as_str output_dir ms 1 None fs2 with
          | SimpleOk fs3 None => SimpleRaised UnboundLocalError fs3
          | r => r
          end
      end
  end.

(* ------------------------------------------------------------------ *)
(** ** Concrete inputs used by the examples below *)

Definition small_file : eml_file := {| fname := lit "00002_Hi.eml"; fsize := 300 |}.
Definition big_file : eml_file := {| fname := lit "00001_Report.eml"; fsize := 2000000 |}.

Definition demo_env : env :=
  {| uword := fun _ => false; can_open := fun _ => true; can_mkdir := fun _ => true |}.

Definition demo_dir : pystr := lit "out".

(** An output directory that exists already, and one that does not. *)
Definition demo_fs_out : fsys := {| dirs := [demo_dir]; files := [] |}.
Definition demo_fs_empty : fsys := {| dirs := []; files := [] |}.

Definition demo_msg (subject body : string) : message :=
  {| msg_subject := Some (HStr (lit subject));
     msg_from := Some (HStr (lit "Ann <ann@example.org>"));
     msg_flat := Flattened (lit body) |}.

(** A message on which [Generator.flatten] raises after a partial write. *)
Definition broken_msg : message :=
  {| msg_subject := Some (HStr (lit "Bad")); msg_from := None;
     msg_flat := FlattenFails (lit "From: ") |}.

(** [decode_subject] on subjects without RFC 2047 encoded words: such a
    [str] is returned unchanged by [decode_header]. *)
Definition plain_decode (h : hval) : pystr :=
  match h with HStr s => s | HObj => lit "No_Subject" end.


(* ------------------------------------------------------------------ *)
(** ** Auxiliary definitions used in the properties *)

(** [k] leading zero digits in front of a decimal numeral. *)
Fixpoint pad0 (k : nat) (u : Decimal.uint) : Decimal.uint :=
  match k with O => u | S k => Decimal.D0 (pad0 k u) end.

(** The file name of message [i] in step 1 of the GUI run (line 138). *)
Definition gui_file_name (decode : hval -> pystr) (i : nat) (m : message) : pystr :=
  zpad 5 i ++ 95 :: (gui_sanitize (decode (msg_get (msg_subject m) (lit "No_Subject"))) 50
                     ++ lit ".eml").

(** Files of size [s]. *)
Definition size_is (s : N) (f : eml_file) : bool := (fsize f =? s)%N.

(** No two adjacent spaces. *)
Definition no_double_space (s : pystr) : Prop := forall l1 l2, s <> l1 ++ 32 :: 32 :: l2.

(** A message whose subject and sender are strings and which serializes. *)
Definition converts_cleanly (m : message) : Prop :=
  exists s f t, msg_get (msg_subject m) (lit "No Subject") = HStr s /\
    msg_get (msg_from m) (lit "Unknown Sender") = HStr f /\ msg_flat m = Flattened t.

(* ================================================================== *)
(** * Properties *)

Lemma str_eqb_eq a b : str_eqb a b = true <-> a = b.
Proof.
  unfold str_eqb; destruct (list_eq_dec Z.eq_dec a b); split; congruence.
Qed.

(** ** Batch partitioner *)

Definition batch_ok (bs maxb : Z) (b : list eml_file) : Prop :=
  Z.of_nat (List.length b) <= bs /\
  (batch_size b <= maxb \/ exists f, b = [f] /\ maxb < Z.of_N (fsize f)).

Lemma batch_size_snoc b f :
  batch_size (b ++ [f]) = batch_size b + Z.of_N (fsize f).
Proof.
  unfold batch_size; rewrite fold_right_app; simpl.
  induction b as [|g b IH]; simpl; [lia|]. rewrite IH; lia.
Qed.

Lemma partition_loop_ok bs maxb files : forall batches cur cs,
  1 <= bs -> 0 <= maxb ->
  Forall (batch_ok bs maxb) batches -> batch_ok bs maxb cur ->
  cs = batch_size cur ->
  Forall (batch_ok bs maxb) (partition_loop bs maxb files batches cur cs).
Proof.
  induction files as [|f rest IH]; intros batches cur cs Hbs Hmaxb Hb Hc Hcs; simpl.
  - destruct cur; [assumption|]. apply Forall_app; split; auto.
  - destruct ((bs <=? Z.of_nat (List.length cur)) || (maxb <? cs + Z.of_N (fsize f)))
      eqn:Hflush.
    + apply IH; auto.
      * apply Forall_app; split; auto.
      * split; [simpl; lia|].
        destruct (Z.le_gt_cases (Z.of_N (fsize f)) maxb) as [Hle|Hgt].
        -- left; unfold batch_size; simpl; lia.
        -- right; exists f; split; [reflexivity|lia].
      * unfold batch_size; simpl; lia.
    + apply orb_false_iff in Hflush as [H1 H2].
      apply Z.leb_gt in H1; apply Z.ltb_ge in H2.
      apply IH; auto.
      * split.
        -- rewrite length_app; simpl; lia.
        -- left; rewrite batch_size_snoc; lia.
      * rewrite batch_size_snoc; lia.
Qed.

Lemma partition_loop_concat bs maxb files : forall batches cur cs,
  List.concat (partition_loop bs maxb files batches cur cs) = List.concat batches ++ cur ++ files.
Proof.
  induction files as [|f rest IH]; intros batches cur cs; simpl.
  - destruct cur; simpl.
    + rewrite app_nil_r; reflexivity.
    + rewrite concat_app; simpl; rewrite !app_nil_r; reflexivity.
  - destruct (_ || _); rewrite IH.
    + rewrite concat_app; simpl; rewrite !app_nil_r, <- app_assoc; reflexivity.
    + rewrite <- !app_assoc; reflexivity.
Qed.

Lemma partition_loop_cons bs maxb f rest batches cur cur_size :
  partition_loop bs maxb (f :: rest) batches cur cur_size =
  if (bs <=? Z.of_nat (List.length cur)) || (maxb <? cur_size + Z.of_N (fsize f))
  then partition_loop bs maxb rest (batches ++ [cur]) [f] (0 + Z.of_N (fsize f))
  else partition_loop bs maxb rest batches (cur ++ [f]) (cur_size + Z.of_N (fsize f)).
Proof. reflexivity. Qed.

(** When every file is larger than the byte limit, each one closes the
    current batch, the first time while it is still [cur]. *)
Lemma partition_loop_all_over bs maxb files : forall f batches cur cur_size,
  0 <= cur_size ->
  Forall (fun g => maxb < Z.of_N (fsize g)) (f :: files) ->
  partition_loop bs maxb (f :: files) batches cur cur_size =
  batches ++ cur :: map (fun y => [y]) (f :: files).
Proof.
  induction files as [|g rest IH]; intros f batches cur cs Hcs Hall;
    rewrite partition_loop_cons; inversion Hall as [|? ? Hf Hrest]; subst.
  - replace (maxb <? cs + Z.of_N (fsize f)) with true
      by (symmetry; apply Z.ltb_lt; lia).
    rewrite orb_true_r; simpl; rewrite <- app_assoc; reflexivity.
  - replace (maxb <? cs + Z.of_N (fsize f)) with true
      by (symmetry; apply Z.ltb_lt; lia).
    rewrite orb_true_r, IH by (lia || exact Hrest).
    rewrite <- app_assoc; reflexivity.
Qed.

(** C1: with [maxCount >= 1] and [maxBytes >= 1] every batch has at most
    [maxCount] files and at most [maxBytes] bytes, unless it is a single
    file that alone exceeds [maxBytes]. *)
Theorem make_batches_within_limits : forall bs maxb files,
  1 <= bs -> 1 <= maxb ->
  Forall (batch_ok bs maxb) (make_batches bs maxb files).
Proof.
  intros bs maxb files Hbs Hmaxb; unfold make_batches.
  apply partition_loop_ok; auto; try lia.
  split; [simpl; lia|left; unfold batch_size; simpl; lia].
Qed.

Lemma make_batches_within_limits_witness :
  (1 <= 2 /\ 1 <= 1000) /\
  Forall (batch_ok 2 1000) (make_batches 2 1000 [small_file; big_file; small_file]).
Proof.
  split; [lia|]. apply make_batches_within_limits; lia.
Defined.

(** C2: concatenating the batches in order gives back the input sequence. *)
Theorem make_batches_concat : forall bs maxb files,
  List.concat (make_batches bs maxb files) = files.
Proof.
  intros; unfold make_batches; rewrite partition_loop_concat; reflexivity.
Qed.

(** C7 (counterexample): with [maxCount = 0] the partitioner raises
    nothing and returns batches. *)
Lemma make_batches_zero_count_accepted :
  make_batches 0 1048576 [small_file] = [[]; [small_file]].
Proof. reflexivity. Qed.

(** C7 (amended): the partitioner validates neither limit and raises
    nothing: for a count limit below 1 or a byte limit below 1 it still
    builds batches from a non-empty input, and they hold every input
    file, in input order. *)
Theorem make_batches_no_validation : forall bs maxb files,
  (bs < 1 \/ maxb < 1) -> files <> [] ->
  make_batches bs maxb files <> [] /\ List.concat (make_batches bs maxb files) = files.
Proof.
  intros bs maxb files _ Hne; unfold make_batches; rewrite partition_loop_concat; simpl.
  split; [|reflexivity].
  intros E; apply Hne.
  assert (Hc := partition_loop_concat bs maxb files [] [] 0); rewrite E in Hc; simpl in Hc.
  symmetry; exact Hc.
Qed.

Lemma make_batches_no_validation_witness :
  (0 < 1 \/ 0 < 1) /\ [small_file; big_file] <> [] /\
  make_batches 0 0 [small_file; big_file] <> [] /\
  List.concat (make_batches 0 0 [small_file; big_file]) = [small_file; big_file].
Proof.
  assert (H1 : 0 < 1 \/ 0 < 1) by (left; lia).
  assert (H2 : [small_file; big_file] <> []) by discriminate.
  split; [exact H1|split; [exact H2|]].
  exact (make_batches_no_validation 0 0 [small_file; big_file] H1 H2).
Defined.

(** ** Sanitizers *)

Lemma In_lstrip c s : In c (lstrip s) -> In c s.
Proof.
  induction s as [|x r IH]; simpl; [auto|].
  destruct (is_space x); simpl; intuition.
Qed.

Lemma In_py_strip c s : In c (py_strip s) -> In c s.
Proof.
  unfold py_strip; intros H.
  apply in_rev, In_lstrip, in_rev, In_lstrip in H; exact H.
Qed.

Lemma In_firstn_l {A} (x : A) n l : In x (firstn n l) -> In x l.
Proof.
  intros H; rewrite <- (firstn_skipn n l); apply in_or_app; left; exact H.
Qed.

Lemma In_py_slice_to {A} (x : A) s k : In x (py_slice_to s k) -> In x s.
Proof. unfold py_slice_to; destruct (0 <=? k); apply In_firstn_l. Qed.

Lemma In_collapse_ws c b s : In c (collapse_ws b s) -> c = 32 \/ In c s.
Proof.
  revert b; induction s as [|x r IH]; intros b; simpl; [tauto|].
  destruct (is_space x), b; simpl; intros H;
    repeat match goal with
    | H : _ \/ _ |- _ => destruct H as [H|H]
    | H : In _ (collapse_ws _ _) |- _ => apply IH in H
    end; subst; auto.
Qed.

Lemma length_py_slice_to_nonneg {A} (s : list A) k :
  0 <= k -> Z.of_nat (List.length (py_slice_to s k)) <= k.
Proof.
  intros Hk; unfold py_slice_to.
  replace (0 <=? k) with true by (symmetry; apply Z.leb_le; lia).
  pose proof (firstn_le_length (Z.to_nat k) s); lia.
Qed.

Ltac in_lit_cases :=
  let c := fresh "c" in let H := fresh "H" in
  intros c H; simpl in H; repeat destruct H as [<-|H]; try contradiction;
  vm_compute; auto.

(** C4 (counterexample): with [max_length = 1] the converter's sanitizer
    returns 8 characters, and the GUI's sanitizer keeps the control
    character 0x01. *)
Lemma sanitizers_counterexample :
  List.length (sanitize_filename (lit "abcdefgh") 1) = 8%nat /\
  gui_sanitize [1] 50 = [1].
Proof. split; reflexivity. Qed.

(** C4 (amended): for [max_length >= 4] the converter's [sanitize_filename]
    returns a non-empty string without < > : (double quote) / | ? * and
    without control characters 0x00-0x1F, whose length is at most
    [max_length] unless it is the placeholder [unnamed_email]; for
    [max_len >= 0] the GUI's [sanitize] returns a non-empty string without
    < > : (double quote) / (backslash) | ? *, of length at most [max_len]
    unless it is the placeholder [No_Subject]. *)
Theorem sanitizers_safe :
  (forall s ml, 4 <= ml ->
     sanitize_filename s ml <> [] /\
     (forall c, In c (sanitize_filename s ml) ->
        is_cli_bad c = false /\ is_ctrl c = false) /\
     (Z.of_nat (List.length (sanitize_filename s ml)) <= ml \/
      sanitize_filename s ml = lit "unnamed_email")) /\
  (forall t ml, 0 <= ml ->
     gui_sanitize t ml <> [] /\
     (forall c, In c (gui_sanitize t ml) -> is_gui_bad c = false) /\
     (Z.of_nat (List.length (gui_sanitize t ml)) <= ml \/
      gui_sanitize t ml = lit "No_Subject")).
Proof.
  split.
  - intros s ml Hml; unfold sanitize_filename.
    set (f3 := py_strip _).
    assert (Hf3 : forall c, In c f3 -> is_cli_bad c = false /\ is_ctrl c = false).
    { intros c Hc; apply In_py_strip, filter_In in Hc as [Hc Hctl].
      apply in_map_iff in Hc as [x [<- _]].
      apply negb_true_iff in Hctl.
      destruct (is_cli_bad x) eqn:Hx; split; auto. }
    destruct (Z.of_nat (List.length f3) >? ml) eqn:Hlen.
    + apply Z.gtb_lt in Hlen.
      assert (Hlen' : Z.of_nat (List.length (py_slice_to f3 (ml - 4) ++ lit "...")) <= ml).
      { rewrite length_app; pose proof (length_py_slice_to_nonneg f3 (ml - 4)).
        simpl List.length; lia. }
      destruct (py_slice_to f3 (ml - 4) ++ lit "...") as [|x r] eqn:Hr.
      * destruct (py_slice_to f3 (ml - 4)); discriminate.
      * split; [discriminate|split]; [ |left; exact Hlen'].
        intros c Hc; rewrite <- Hr in Hc; apply in_app_or in Hc as [Hc|Hc].
        -- apply Hf3, (In_py_slice_to _ _ (ml - 4)), Hc.
        -- revert c Hc; in_lit_cases.
    + rewrite Z.gtb_ltb in Hlen; apply Z.ltb_ge in Hlen.
      destruct f3 as [|x r] eqn:Hr.
      * split; [discriminate|split]; [ |right; reflexivity].
        in_lit_cases.
      * split; [discriminate|split]; [exact Hf3|left; exact Hlen].
  - intros t ml Hml; unfold gui_sanitize.
    set (t2 := py_strip _).
    assert (Ht2 : forall c, In c t2 -> is_gui_bad c = false).
    { intros c Hc; apply In_py_strip, In_collapse_ws in Hc as [->|Hc]; [reflexivity|].
      apply in_map_iff in Hc as [x [<- _]].
      destruct (is_gui_bad x) eqn:Hx; auto. }
    pose proof (length_py_slice_to_nonneg t2 ml Hml) as Hlen.
    destruct (py_slice_to t2 ml) as [|x r] eqn:Hr.
    + split; [discriminate|split]; [ |right; reflexivity].
      in_lit_cases.
    + split; [discriminate|split]; [ |left; exact Hlen].
      intros c Hc; rewrite <- Hr in Hc; apply Ht2, (In_py_slice_to _ _ ml), Hc.
Qed.

Lemma sanitizers_safe_witness :
  (4 <= 100 /\ sanitize_filename (lit "Re: a/b?") 100 <> []) /\
  (0 <= 50 /\ gui_sanitize (lit "Re: a/b?") 50 <> []).
Proof.
  split; split; try lia.
  - apply (proj1 sanitizers_safe (lit "Re: a/b?") 100); lia.
  - apply (proj2 sanitizers_safe (lit "Re: a/b?") 50); lia.
Defined.

(** ** Output file names *)

Lemma uint_digits_inj u v : uint_digits u = uint_digits v -> u = v.
Proof.
  revert v; induction u; destruct v; simpl; intros H;
    try discriminate; try reflexivity;
    injection H as H; f_equal; auto.
Qed.

Lemma py_str_nat_inj n m : py_str_nat n = py_str_nat m -> n = m.
Proof.
  unfold py_str_nat; intros H.
  apply DecimalNat.Unsigned.to_uint_inj, uint_digits_inj, H.
Qed.

Lemma cand_inj base i j : cand base i = cand base j -> i = j.
Proof.
  destruct i as [|i], j as [|j]; simpl; intros H; auto;
    apply app_inv_head in H; try discriminate.
  injection H as H; apply app_inv_tail, py_str_nat_inj in H; exact H.
Qed.

Definition starts_with_slash (f : pystr) : bool :=
  match f with c :: _ => c =? 47 | [] => false end.

Lemma join_eq d f :
  join d f = if starts_with_slash f then f else join_prefix d ++ f.
Proof. destruct f; reflexivity. Qed.

Lemma starts_with_slash_cand base k :
  starts_with_slash (cand base k) =
  match base with [] => false | b :: _ => b =? 47 end.
Proof. destruct base, k; reflexivity. Qed.

Lemma join_cand_inj d base i j :
  join d (cand base i) = join d (cand base j) -> i = j.
Proof.
  rewrite !join_eq, !starts_with_slash_cand.
  destruct (match base with [] => false | b :: _ => b =? 47 end);
    intros H; [|apply app_inv_head in H]; apply cand_inj in H; exact H.
Qed.

Lemma path_exists_In fs p : path_exists fs p = true <-> In p (entries fs).
Proof.
  unfold path_exists; rewrite existsb_exists; split.
  - intros [q [Hq Heq]]; apply str_eqb_eq in Heq; subst; exact Hq.
  - intros H; exists p; split; [exact H|apply str_eqb_eq; reflexivity].
Qed.

Lemma probe_none fs d base : forall fuel c,
  probe fs d base c fuel = None ->
  forall j, (j < fuel)%nat -> path_exists fs (join d (cand base (c + j))) = true.
Proof.
  induction fuel as [|fuel IH]; intros c H j Hj; [lia|].
  simpl in H; destruct (path_exists fs (join d (cand base c))) eqn:E; [|discriminate].
  destruct j as [|j]; [rewrite Nat.add_0_r; exact E|].
  replace (c + S j)%nat with (S c + j)%nat by lia; apply IH; [exact H|lia].
Qed.

Lemma probe_some_spec fs d base : forall fuel c p,
  probe fs d base c fuel = Some p ->
  exists k, p = join d (cand base (c + k)) /\ path_exists fs p = false /\
    forall j, (j < k)%nat -> path_exists fs (join d (cand base (c + j))) = true.
Proof.
  induction fuel as [|fuel IH]; intros c p H; [discriminate|].
  simpl in H; destruct (path_exists fs (join d (cand base c))) eqn:E.
  - apply IH in H as [k [-> [Hp Hj]]].
    exists (S k); split; [replace (c + S k)%nat with (S c + k)%nat by lia; reflexivity|split; [exact Hp|]].
    intros j Hjk; destruct j as [|j]; [rewrite Nat.add_0_r; exact E|].
    replace (c + S j)%nat with (S c + j)%nat by lia; apply Hj; lia.
  - injection H as <-; exists 0%nat; rewrite Nat.add_0_r.
    split; [reflexivity|split; [exact E|intros; lia]].
Qed.

(** The [while os.path.exists] loop always stops: among the first
    [n + 1] candidate names, which are pairwise distinct, one is free when
    the directory holds [n] entries. *)
Lemma probe_some fs d base :
  exists p, probe fs d base 0 (S (List.length (entries fs))) = Some p.
Proof.
  destruct (probe fs d base 0 (S (List.length (entries fs)))) as [p|] eqn:E;
    [eauto|exfalso].
  set (n := List.length (entries fs)) in E.
  set (L := map (fun k => join d (cand base k)) (seq 0 (S n))).
  assert (HL : NoDup L).
  { apply NoDup_map_NoDup_ForallPairs; [|apply seq_NoDup].
    intros x y _ _ H; apply (join_cand_inj d base), H. }
  assert (Hincl : incl L (entries fs)).
  { intros p Hp; apply in_map_iff in Hp as [k [<- Hk]]; apply in_seq in Hk.
    apply path_exists_In.
    apply (probe_none fs d base _ 0 E k); lia. }
  apply NoDup_incl_length in Hincl; [|exact HL].
  unfold L in Hincl; rewrite length_map, length_seq in Hincl; lia.
Qed.

Lemma get_safe_filename_spec e msg index d fs subject sender :
  msg_get (msg_subject msg) (lit "No Subject") = HStr subject ->
  msg_get (msg_from msg) (lit "Unknown Sender") = HStr sender ->
  exists k p, get_safe_filename e msg index d fs = Some p /\
    p = join d (cand (base_name e subject sender index) k) /\
    path_exists fs p = false /\
    forall j, (j < k)%nat ->
      path_exists fs (join d (cand (base_name e subject sender index) j)) = true.
Proof.
  intros Hs Hf; unfold get_safe_filename; rewrite Hs, Hf.
  destruct (probe_some fs d (base_name e subject sender index)) as [p Hp].
  rewrite Hp; apply probe_some_spec in Hp as [k Hk].
  exists k, p; split; [reflexivity|exact Hk].
Qed.

Lemma get_safe_filename_fresh e msg index d fs p :
  get_safe_filename e msg index d fs = Some p -> ~ In p (entries fs).
Proof.
  unfold get_safe_filename.
  destruct (msg_get (msg_subject msg) (lit "No Subject")) as [subject|],
           (msg_get (msg_from msg) (lit "Unknown Sender")) as [sender|];
    try discriminate.
  intros H; apply probe_some_spec in H as [k [_ [Hp _]]].
  rewrite <- path_exists_In, Hp; discriminate.
Qed.

(** ** The conversion run *)

Lemma entries_set_file fs p t q :
  In q (entries (set_file fs p t)) <-> q = p \/ In q (entries fs).
Proof.
  unfold entries, set_file; simpl; rewrite !in_app_iff; simpl.
  split.
  - intros [H|[H|H]]; auto.
    apply in_map_iff in H as [[q' c] [Hq Hin]]; simpl in Hq; subst q'.
    apply filter_In in Hin as [Hin _].
    right; right; apply in_map_iff; exists (q, c); auto.
  - intros [H|[H|H]]; auto.
    destruct (str_eqb q p) eqn:E; [apply str_eqb_eq in E; auto|].
    apply in_map_iff in H as [[q' c] [Hq Hin]]; simpl in Hq; subst q'.
    right; right; apply in_map_iff; exists (q, c); split; [reflexivity|].
    apply filter_In; split; [exact Hin|simpl; rewrite E; reflexivity].
Qed.

Lemma files_set_file_keep fs p t q c :
  In (q, c) (files fs) -> q <> p -> In (q, c) (files (set_file fs p t)).
Proof.
  intros Hin Hne; simpl; right; apply filter_In; split; [exact Hin|].
  simpl; destruct (str_eqb q p) eqn:E; [apply str_eqb_eq in E; contradiction|reflexivity].
Qed.

Lemma In_files_entries fs q c : In (q, c) (files fs) -> In q (entries fs).
Proof.
  intros H; unfold entries; apply in_app_iff; right.
  apply in_map_iff; exists (q, c); auto.
Qed.

(** The run invariant with respect to the directory contents [fs0] at the
    start of the loop: the opened paths are pairwise distinct, exist, were
    absent from [fs0], and every entry and file of [fs0] is still there
    with the same text. *)
Definition run_inv (fs0 fs : fsys) (opened : list pystr) : Prop :=
  NoDup opened /\
  (forall p, In p opened -> In p (entries fs)) /\
  (forall p, In p (entries fs0) -> In p (entries fs)) /\
  (forall p, In p opened -> ~ In p (entries fs0)) /\
  (forall q c, In (q, c) (files fs0) -> In (q, c) (files fs)) /\
  dirs fs = dirs fs0.

Lemma run_inv_init fs0 : run_inv fs0 fs0 [].
Proof.
  repeat split; auto using NoDup_nil; simpl; tauto.
Qed.

Lemma run_inv_set_file fs0 fs opened p t :
  run_inv fs0 fs opened -> ~ In p (entries fs) ->
  run_inv fs0 (set_file fs p t) (opened ++ [p]).
Proof.
  intros [H1 [H2 [H3 [H4 [H5 H6]]]]] Hp.
  split; [|split; [|split; [|split; [|split]]]].
  - apply NoDup_app; auto using NoDup_cons, NoDup_nil.
    intros a Ha [<-|[]]; apply Hp, H2, Ha.
  - intros q Hq; apply entries_set_file.
    apply in_app_or in Hq as [Hq|[<-|[]]]; auto.
  - intros q Hq; apply entries_set_file; auto.
  - intros q Hq; apply in_app_or in Hq as [Hq|[<-|[]]]; auto.
  - intros q c Hq; apply files_set_file_keep; auto.
    intros ->; apply Hp, (In_files_entries _ _ c), H5, Hq.
  - exact H6.
Qed.

Lemma convert_step_inv e d index m st fs0 :
  run_inv fs0 (st_fs st) (st_opened st) ->
  let st' := convert_step e d index m st in
  run_inv fs0 (st_fs st') (st_opened st').
Proof.
  intros Hinv; unfold convert_step.
  destruct (get_safe_filename e m index d (st_fs st)) as [p|] eqn:G; [|exact Hinv].
  apply get_safe_filename_fresh in G.
  destruct (can_open e p); [|exact Hinv].
  destruct (msg_flat m); apply run_inv_set_file; assumption.
Qed.

Lemma convert_loop_inv e d fs0 ms : forall index st,
  run_inv fs0 (st_fs st) (st_opened st) ->
  let st' := convert_loop e d ms index st in
  run_inv fs0 (st_fs st') (st_opened st').
Proof.
  induction ms as [|m r IH]; intros index st H; simpl; [exact H|].
  apply IH, convert_step_inv, H.
Qed.

Lemma convert_step_counts e d index m st :
  let st' := convert_step e d index m st in
  (st_ok st' + st_err st' = S (st_ok st + st_err st))%nat /\ st_total st' = index.
Proof.
  unfold convert_step.
  destruct (get_safe_filename e m index d (st_fs st)) as [p|];
    [destruct (can_open e p); [destruct (msg_flat m)|]|]; simpl; split; lia.
Qed.

Lemma convert_loop_counts e d ms : forall index st,
  let st' := convert_loop e d ms index st in
  (st_ok st' + st_err st' = st_ok st + st_err st + List.length ms)%nat /\
  st_total st' = match ms with [] => st_total st | _ => (index + List.length ms - 1)%nat end.
Proof.
  induction ms as [|m r IH]; intros index st; simpl; [split; [lia|reflexivity]|].
  destruct (convert_step_counts e d index m st) as [Hc Ht].
  destruct (IH (S index) (convert_step e d index m st)) as [Hc' Ht'].
  split; [lia|]. destruct r; simpl in *; lia.
Qed.

Lemma convert_step_flatten_fails e d index m st w :
  msg_flat m = FlattenFails w ->
  st_ok (convert_step e d index m st) = st_ok st /\
  st_err (convert_step e d index m st) = S (st_err st).
Proof.
  intros Hm; unfold convert_step.
  destruct (get_safe_filename e m index d (st_fs st)) as [p|];
    [destruct (can_open e p); [rewrite Hm|]|]; simpl; auto.
Qed.

Lemma convert_step_success e d index m st subject sender t :
  msg_get (msg_subject m) (lit "No Subject") = HStr subject ->
  msg_get (msg_from m) (lit "Unknown Sender") = HStr sender ->
  (forall p, can_open e p = true) -> msg_flat m = Flattened t ->
  exists p, ~ In p (entries (st_fs st)) /\
    convert_step e d index m st =
    {| st_fs := set_file (st_fs st) p t; st_ok := S (st_ok st);
       st_err := st_err st; st_total := index; st_opened := st_opened st ++ [p] |}.
Proof.
  intros Hs Hf Hopen Hm.
  destruct (get_safe_filename_spec e m index d (st_fs st) subject sender Hs Hf)
    as [k [p [G _]]].
  exists p; split; [apply (get_safe_filename_fresh e m index d), G|].
  unfold convert_step; rewrite G, Hopen, Hm; reflexivity.
Qed.

Lemma lookup_file_In fs p t : lookup_file fs p = Some t -> In p (entries fs).
Proof.
  unfold lookup_file; destruct (find _ (files fs)) as [[q c]|] eqn:E; [|discriminate].
  intros _; apply find_some in E as [Hin Heq]; simpl in Heq.
  apply str_eqb_eq in Heq; subst; apply (In_files_entries _ _ c), Hin.
Qed.

Lemma find_filter_keep {A} (f g : A -> bool) l :
  (forall x, f x = true -> g x = true) -> find f (filter g l) = find f l.
Proof.
  intros H; induction l as [|x r IH]; simpl; [reflexivity|].
  destruct (g x) eqn:Gx; simpl; destruct (f x) eqn:Fx; auto.
  rewrite (H x Fx) in Gx; discriminate.
Qed.

Lemma lookup_set_file fs p t q :
  lookup_file (set_file fs p t) q = if str_eqb p q then Some t else lookup_file fs q.
Proof.
  unfold lookup_file, set_file; simpl.
  destruct (str_eqb p q) eqn:E; [reflexivity|].
  rewrite find_filter_keep; [reflexivity|].
  intros [q' c] H; simpl in *; apply str_eqb_eq in H; subst q'.
  destruct (str_eqb q p) eqn:E'; [|reflexivity].
  apply str_eqb_eq in E'; subst.
  rewrite (proj2 (str_eqb_eq p p) eq_refl) in E; discriminate.
Qed.

Lemma convert_step_keeps_lookup e d index m st q t :
  lookup_file (st_fs st) q = Some t ->
  lookup_file (st_fs (convert_step e d index m st)) q = Some t.
Proof.
  intros Hq; unfold convert_step.
  destruct (get_safe_filename e m index d (st_fs st)) as [p|] eqn:G; [|exact Hq].
  apply get_safe_filename_fresh in G.
  destruct (can_open e p); [|exact Hq].
  assert (Hne : str_eqb p q = false).
  { destruct (str_eqb p q) eqn:E; [|reflexivity].
    apply str_eqb_eq in E; subst; exfalso; apply G, (lookup_file_In _ _ t), Hq. }
  destruct (msg_flat m); simpl; rewrite lookup_set_file, Hne; exact Hq.
Qed.

Lemma mkdir_existing e fs d : In d (dirs fs) -> mkdir_exist_ok e fs d = Some fs.
Proof.
  intros H; unfold mkdir_exist_ok.
  replace (existsb (str_eqb d) (dirs fs)) with true; [reflexivity|].
  symmetry; apply existsb_exists; exists d; split; [exact H|apply str_eqb_eq; reflexivity].
Qed.

Lemma mkdir_spec e fs d fs1 :
  mkdir_exist_ok e fs d = Some fs1 ->
  files fs1 = files fs /\ incl (dirs fs) (dirs fs1) /\
  (forall p, In p (entries fs) -> In p (entries fs1)).
Proof.
  unfold mkdir_exist_ok.
  destruct (existsb (str_eqb d) (dirs fs)); [intros [=<-]; repeat split; auto using incl_refl|].
  destruct (path_exists fs d); [discriminate|].
  destruct (can_mkdir e d); [|discriminate].
  intros [=<-]; simpl; split; [reflexivity|split].
  - intros x Hx; right; exact Hx.
  - unfold entries; simpl; intros p Hp; right; exact Hp.
Qed.

(** C5: the name starts with the zero-padded index; [base.eml] is taken if
    free, otherwise the first free [base_k.eml], [k = 1, 2, ...]; and in a
    run the paths opened for writing are pairwise distinct and none of them
    existed before the run. *)
Theorem convert_distinct_output_paths :
  (forall e msg index d fs subject sender,
     msg_get (msg_subject msg) (lit "No Subject") = HStr subject ->
     msg_get (msg_from msg) (lit "Unknown Sender") = HStr sender ->
     exists k p, get_safe_filename e msg index d fs = Some p /\
       p = join d (cand (base_name e subject sender index) k) /\
       path_exists fs p = false /\
       forall j, (j < k)%nat ->
         path_exists fs (join d (cand (base_name e subject sender index) j)) = true) /\
  (forall e a d fs0 ok err total fs opened,
     convert_mbox_to_eml e a d fs0 = Report ok err total fs opened ->
     NoDup opened /\ (forall p, In p opened -> path_exists fs0 p = false)).
Proof.
  split; [exact get_safe_filename_spec|].
  intros e a d fs0 ok err total fs opened H.
  unfold convert_mbox_to_eml in H.
  destruct a as [| |ms]; [discriminate| |].
  - destruct (mkdir_exist_ok e fs0 d); discriminate.
  - destruct (mkdir_exist_ok e fs0 d) as [fs1|] eqn:M; [|discriminate].
    injection H as _ _ _ Hfs Hop.
    destruct (convert_loop_inv e d fs1 ms 1
                {| st_fs := fs1; st_ok := 0; st_err := 0; st_total := 0; st_opened := [] |}
                (run_inv_init fs1)) as [H1 [_ [_ [H4 _]]]].
    rewrite Hop in H1, H4; split; [exact H1|].
    intros p Hp; destruct (path_exists fs0 p) eqn:E; [|reflexivity].
    exfalso; apply (H4 p Hp), (proj2 (proj2 (mkdir_spec e fs0 d fs1 M))).
    apply path_exists_In, E.
Qed.

Lemma convert_distinct_output_paths_witness :
  exists ok err total fs opened,
    convert_mbox_to_eml demo_env (Mbox [demo_msg "Hello" "a"; demo_msg "Hello" "b"])
      demo_dir demo_fs_empty = Report ok err total fs opened /\ NoDup opened.
Proof.
  destruct (convert_mbox_to_eml demo_env (Mbox [demo_msg "Hello" "a"; demo_msg "Hello" "b"])
              demo_dir demo_fs_empty) as [ok err total fs opened|ex fs] eqn:E.
  - exists ok, err, total, fs, opened; split; [reflexivity|].
    exact (proj1 (proj2 convert_distinct_output_paths _ _ _ _ _ _ _ _ _ E)).
  - vm_compute in E; discriminate.
Defined.

(** C6: a failing message only increments the failure counter and the run
    goes on, so the report satisfies [total = succeeded + failed] with
    [total] the number of messages; for three messages of which only the
    second fails to serialize, the report is (2, 1, 3) and the texts of
    messages 1 and 3 are in two distinct files. *)
Theorem convert_continue_on_error :
  (forall e ms d fs0, mkdir_exist_ok e fs0 d <> None ->
     exists ok err fs opened,
       convert_mbox_to_eml e (Mbox ms) d fs0 = Report ok err (List.length ms) fs opened /\
       List.length ms = (ok + err)%nat) /\
  (forall e d fs0 m1 m2 m3 s1 f1 s3 f3 t1 w2 t3,
     (forall p, can_open e p = true) -> mkdir_exist_ok e fs0 d <> None ->
     msg_get (msg_subject m1) (lit "No Subject") = HStr s1 ->
     msg_get (msg_from m1) (lit "Unknown Sender") = HStr f1 ->
     msg_get (msg_subject m3) (lit "No Subject") = HStr s3 ->
     msg_get (msg_from m3) (lit "Unknown Sender") = HStr f3 ->
     msg_flat m1 = Flattened t1 -> msg_flat m2 = FlattenFails w2 ->
     msg_flat m3 = Flattened t3 ->
     exists fs opened p1 p3,
       convert_mbox_to_eml e (Mbox [m1; m2; m3]) d fs0 = Report 2 1 3 fs opened /\
       lookup_file fs p1 = Some t1 /\ lookup_file fs p3 = Some t3 /\ p1 <> p3).
Proof.
  split.
  - intros e ms d fs0 Hmk; unfold convert_mbox_to_eml.
    destruct (mkdir_exist_ok e fs0 d) as [fs1|]; [|congruence].
    set (st0 := {| st_fs := fs1; st_ok := 0; st_err := 0; st_total := 0; st_opened := [] |}).
    destruct (convert_loop_counts e d ms 1 st0) as [Hc Ht].
    replace (st_total (convert_loop e d ms 1 st0)) with (List.length ms)
      by (rewrite Ht; destruct ms; simpl; lia).
    do 4 eexists; split; [reflexivity|simpl in Hc; lia].
  - intros e d fs0 m1 m2 m3 s1 f1 s3 f3 t1 w2 t3 Hopen Hmk Hs1 Hf1 Hs3 Hf3 Hm1 Hm2 Hm3.
    unfold convert_mbox_to_eml.
    destruct (mkdir_exist_ok e fs0 d) as [fs1|]; [|congruence].
    cbn [convert_loop].
    set (st0 := {| st_fs := fs1; st_ok := 0; st_err := 0; st_total := 0; st_opened := [] |}).
    destruct (convert_step_success e d 1 m1 st0 s1 f1 t1 Hs1 Hf1 Hopen Hm1) as [p1 [_ E1]].
    rewrite E1.
    set (st1 := {| st_fs := set_file (st_fs st0) p1 t1; st_ok := S (st_ok st0);
                   st_err := st_err st0; st_total := 1; st_opened := st_opened st0 ++ [p1] |}).
    assert (L1 : lookup_file (st_fs st1) p1 = Some t1).
    { simpl; rewrite lookup_set_file, (proj2 (str_eqb_eq p1 p1) eq_refl); reflexivity. }
    pose proof (convert_step_keeps_lookup e d 2 m2 st1 p1 t1 L1) as L2.
    destruct (convert_step_flatten_fails e d 2 m2 st1 w2 Hm2) as [Ok2 Err2].
    set (st2 := convert_step e d 2 m2 st1) in *.
    destruct (convert_step_success e d 3 m3 st2 s3 f3 t3 Hs3 Hf3 Hopen Hm3) as [p3 [Hp3 E3]].
    rewrite E3; simpl; rewrite Ok2, Err2.
    assert (Hne : p1 <> p3).
    { intros ->; apply Hp3, (lookup_file_In _ _ t1), L2. }
    exists (set_file (st_fs st2) p3 t3), (st_opened st2 ++ [p3]), p1, p3.
    split; [reflexivity|split; [|split; [|exact Hne]]].
    + rewrite lookup_set_file.
      destruct (str_eqb p3 p1) eqn:E; [apply str_eqb_eq in E; congruence|exact L2].
    + rewrite lookup_set_file, (proj2 (str_eqb_eq p3 p3) eq_refl); reflexivity.
Qed.

Lemma convert_continue_on_error_witness :
  exists fs opened p1 p3,
    convert_mbox_to_eml demo_env (Mbox [demo_msg "One" "1"; broken_msg; demo_msg "Three" "3"])
      demo_dir demo_fs_empty = Report 2 1 3 fs opened /\
    lookup_file fs p1 = Some (lit "1") /\ lookup_file fs p3 = Some (lit "3") /\ p1 <> p3.
Proof.
  apply (proj2 convert_continue_on_error demo_env demo_dir demo_fs_empty
           (demo_msg "One" "1") broken_msg (demo_msg "Three" "3")
           (lit "One") (lit "Ann <ann@example.org>") (lit "Three") (lit "Ann <ann@example.org>")
           (lit "1") (lit "From: ") (lit "3"));
    try reflexivity.
  vm_compute; discriminate.
Defined.

(** C8 (counterexample): an archive with no messages has zero successes,
    yet [main] exits with 0. *)
Lemma main_exit_empty_archive :
  convert_mbox_to_eml demo_env (Mbox []) demo_dir demo_fs_empty =
    Report 0 0 0 demo_fs_out [] /\
  main_exit (convert_mbox_to_eml demo_env (Mbox []) demo_dir demo_fs_empty) = 0.
Proof. split; reflexivity. Qed.

(** C8 (amended): [main] exits with 0 exactly when no message failed
    (including an archive with no messages), with 1 exactly when some
    failed and at least one succeeded, and with 2 exactly when the run
    raised or some failed and none succeeded. *)
Theorem main_exit_codes : forall e a d fs0,
  let r := convert_mbox_to_eml e a d fs0 in
  (main_exit r = 0 <-> exists ok t fs op, r = Report ok 0 t fs op) /\
  (main_exit r = 1 <->
     exists ok err t fs op, r = Report ok err t fs op /\ (0 < err)%nat /\ (0 < ok)%nat) /\
  (main_exit r = 2 <->
     (exists ex fs, r = Raised ex fs) \/
     exists err t fs op, r = Report 0 err t fs op /\ (0 < err)%nat).
Proof.
  intros e a d fs0; cbv zeta.
  destruct (convert_mbox_to_eml e a d fs0) as [ok err t fs op|ex fs].
  - destruct err as [|err], ok as [|ok]; simpl;
      (split; [|split]); split; intros H;
      repeat match goal with
        | H : exists _, _ |- _ => destruct H
        | H : _ /\ _ |- _ => destruct H
        | H : _ \/ _ |- _ => destruct H
        | H : Report _ _ _ _ _ = Report _ _ _ _ _ |- _ => injection H; clear H; intros; subst
        end;
      try discriminate; try lia;
      first [ do 4 eexists; reflexivity
            | do 5 eexists; split; [reflexivity|split; lia]
            | right; do 4 eexists; split; [reflexivity|lia]
            | idtac ].
  - simpl; (split; [|split]); split; intros H;
      repeat match goal with
        | H : exists _, _ |- _ => destruct H
        | H : _ /\ _ |- _ => destruct H
        | H : _ \/ _ |- _ => destruct H
        end;
      try discriminate; try lia.
    left; eauto.
Qed.




(** C10: for an existing archive with no messages, when the output
    directory exists or can be created, [convert_mbox_to_eml] creates it if
    needed and returns (0, 0, 0). *)
Theorem convert_empty_mbox : forall e d fs0,
  In d (dirs fs0) \/ (~ In d (entries fs0) /\ can_mkdir e d = true) ->
  exists fs, convert_mbox_to_eml e (Mbox []) d fs0 = Report 0 0 0 fs [] /\
             In d (dirs fs).
Proof.
  intros e d fs0 [Hd|[Hd Hmk]]; unfold convert_mbox_to_eml.
  - rewrite (mkdir_existing e fs0 d Hd); eexists; split; [reflexivity|exact Hd].
  - unfold mkdir_exist_ok.
    replace (existsb (str_eqb d) (dirs fs0)) with false.
    2:{ symmetry; apply not_true_iff_false; intros H.
        apply existsb_exists in H as [q [Hq Heq]]; apply str_eqb_eq in Heq; subst q.
        apply Hd; unfold entries; apply in_or_app; left; exact Hq. }
    replace (path_exists fs0 d) with false.
    2:{ symmetry; apply not_true_iff_false; rewrite path_exists_In; exact Hd. }
    rewrite Hmk; eexists; split; [reflexivity|simpl; auto].
Qed.

Lemma convert_empty_mbox_witness :
  exists fs, convert_mbox_to_eml demo_env (Mbox []) demo_dir demo_fs_empty = Report 0 0 0 fs [] /\
             In demo_dir (dirs fs).
Proof.
  apply convert_empty_mbox; right; split; [simpl; auto|reflexivity].
Defined.

(* ================================================================== *)
(** * Further properties of the code *)

(** ** Zero-padded decimal fields *)


Lemma uint_digits_pad0 k u : uint_digits (pad0 k u) = repeat 48 k ++ uint_digits u.
Proof. induction k as [|k IH]; simpl; [reflexivity|rewrite IH; reflexivity]. Qed.

Lemma of_uint_pad0 k u : Nat.of_uint (pad0 k u) = Nat.of_uint u.
Proof.
  induction k as [|k IH]; simpl; [reflexivity|].
  rewrite <- IH, <- (DecimalNat.Unsigned.of_uint_norm (Decimal.D0 (pad0 k u))),
    <- (DecimalNat.Unsigned.of_uint_norm (pad0 k u)).
  reflexivity.
Qed.

Lemma uint_digits_range u c : In c (uint_digits u) -> 48 <= c <= 57.
Proof.
  induction u; simpl; intros H; try contradiction;
    destruct H as [<-|H]; auto; lia.
Qed.

Lemma zpad_range w n c : In c (zpad w n) -> 48 <= c <= 57.
Proof.
  unfold zpad; intros H; apply in_app_or in H as [H|H].
  - apply repeat_spec in H; lia.
  - apply (uint_digits_range _ _ H).
Qed.

Lemma zpad_inj w n m : zpad w n = zpad w m -> n = m.
Proof.
  unfold zpad, py_str_nat; rewrite <- !uint_digits_pad0; intros H.
  apply uint_digits_inj, (f_equal Nat.of_uint) in H.
  rewrite !of_uint_pad0, !DecimalNat.Unsigned.of_to in H; exact H.
Qed.

Lemma length_zpad w n :
  List.length (zpad w n) = Nat.max w (List.length (py_str_nat n)).
Proof. unfold zpad; rewrite length_app, repeat_length; lia. Qed.

(** Splitting at the first occurrence of a separator. *)
Lemma app_sep_inv (x : Z) l1 l2 r1 r2 :
  ~ In x l1 -> ~ In x l2 -> l1 ++ x :: r1 = l2 ++ x :: r2 -> l1 = l2 /\ r1 = r2.
Proof.
  revert l2; induction l1 as [|a l1 IH]; intros [|b l2] H1 H2 H; simpl in H.
  - injection H as H; auto.
  - injection H as -> _; exfalso; apply H2; left; reflexivity.
  - injection H as <- _; exfalso; apply H1; left; reflexivity.
  - injection H as <- H.
    destruct (IH l2) as [-> ->]; auto; intros Hin; [apply H1|apply H2]; right; exact Hin.
Qed.

Lemma zpad_sep_inj w i j r1 r2 :
  zpad w i ++ 95 :: r1 = zpad w j ++ 95 :: r2 -> i = j /\ r1 = r2.
Proof.
  intros H; apply app_sep_inv in H as [H ->];
    [split; [apply (zpad_inj w), H|reflexivity]| |];
    intros Hin; apply zpad_range in Hin; lia.
Qed.

Lemma starts_with_slash_zpad w i r :
  starts_with_slash (zpad w i ++ 95 :: r) = false.
Proof.
  destruct (zpad w i) as [|c z] eqn:E; [reflexivity|simpl].
  assert (Hc : In c (zpad w i)) by (rewrite E; left; reflexivity).
  apply zpad_range in Hc; apply Z.eqb_neq; lia.
Qed.

Lemma join_zpad_inj d w i j r1 r2 :
  join d (zpad w i ++ 95 :: r1) = join d (zpad w j ++ 95 :: r2) -> i = j /\ r1 = r2.
Proof.
  rewrite !join_eq, !starts_with_slash_zpad; intros H.
  apply app_inv_head, zpad_sep_inj in H; exact H.
Qed.

(** X1: the format spec [{n:0wd}] gives decimal digits only, at least [w] of them (more
    when [str(n)] is longer), and distinct numbers give distinct fields. *)
Theorem zpad_format : forall w n,
  (forall c, In c (zpad w n) -> 48 <= c <= 57) /\
  List.length (zpad w n) = Nat.max w (List.length (py_str_nat n)) /\
  (forall m, zpad w n = zpad w m -> n = m).
Proof.
  intros w n; split; [|split].
  - apply zpad_range.
  - apply length_zpad.
  - apply zpad_inj.
Qed.

(** ** [simple_mbox_to_eml] *)

Lemma py_slice_to_30 {A} (s : list A) : py_slice_to s 30 = firstn 30 s.
Proof. reflexivity. Qed.

(** X2: the cleaned subject keeps only ASCII letters, digits, [_] and [-],
    one code point for one, cut to the first 30. *)
Theorem clean_subject_spec : forall s,
  (forall c, In c (clean_subject s) -> is_simple_keep c = true) /\
  List.length (clean_subject s) = Nat.min (List.length s) 30 /\
  (forall k c, (k < 30)%nat -> nth_error s k = Some c ->
     nth_error (clean_subject s) k = Some (if is_simple_keep c then c else 95)).
Proof.
  intros s; unfold clean_subject; rewrite py_slice_to_30.
  split; [|split].
  - intros c Hc; apply In_firstn_l, in_map_iff in Hc as [x [<- _]].
    destruct (is_simple_keep x) eqn:E; [exact E|reflexivity].
  - rewrite length_firstn, length_map; lia.
  - intros k c Hk Hc; rewrite nth_error_firstn.
    replace (k <? 30)%nat with true by (symmetry; apply Nat.ltb_lt; exact Hk).
    rewrite nth_error_map, Hc; reflexivity.
Qed.

Lemma simple_filename_eq i s :
  simple_filename i s = zpad 4 i ++ 95 :: (clean_subject s ++ lit ".eml").
Proof. reflexivity. Qed.

Lemma str_eqb_refl p : str_eqb p p = true.
Proof. apply str_eqb_eq; reflexivity. Qed.

Lemma simple_loop_keep e as_str d ms : forall i last fs fs' l q t,
  simple_loop e as_str d ms i last fs = SimpleOk fs' l ->
  lookup_file fs q = Some t ->
  (forall j r, (i <= j)%nat -> q <> join d (zpad 4 j ++ 95 :: r)) ->
  lookup_file fs' q = Some t.
Proof.
  induction ms as [|m r IH]; intros i last fs fs' l q t H Hq Hfar; simpl in H.
  - injection H as <- _; exact Hq.
  - destruct (msg_get (msg_subject m) (lit "No_Subject")) as [s|]; [|discriminate].
    destruct (can_open e (join d (simple_filename i s))); [|discriminate].
    destruct (as_str m) as [text|w]; [|discriminate].
    apply (IH _ _ _ _ _ q t H).
    + rewrite lookup_set_file.
      destruct (str_eqb (join d (simple_filename i s)) q) eqn:E; [|exact Hq].
      apply str_eqb_eq in E; rewrite simple_filename_eq in E.
      exfalso; apply (Hfar i (clean_subject s ++ lit ".eml") (le_n i)); symmetry; exact E.
    + intros j rr Hj; apply Hfar; lia.
Qed.

Lemma simple_loop_ok e as_str d ms : forall i last fs fs' l,
  simple_loop e as_str d ms i last fs = SimpleOk fs' l ->
  l = match ms with [] => last | _ => Some (i + List.length ms - 1)%nat end /\
  forall k m, nth_error ms k = Some m ->
    exists s t, msg_get (msg_subject m) (lit "No_Subject") = HStr s /\
      as_str m = Flattened t /\
      lookup_file fs' (join d (simple_filename (i + k) s)) = Some t.
Proof.
  induction ms as [|m r IH]; intros i last fs fs' l H; simpl in H.
  - injection H as <- <-; split; [reflexivity|].
    intros [|k] m' Hk; discriminate.
  - destruct (msg_get (msg_subject m) (lit "No_Subject")) as [s|] eqn:Hs; [|discriminate].
    destruct (can_open e (join d (simple_filename i s))); [|discriminate].
    destruct (as_str m) as [text|w] eqn:Ht; [|discriminate].
    pose proof H as H'; apply IH in H as [Hl Hk]; split.
    + rewrite Hl; destruct r; simpl; f_equal; lia.
    + intros [|k] m' Hnth; simpl in Hnth.
      * injection Hnth as <-; exists s, text; split; [exact Hs|split; [exact Ht|]].
        rewrite Nat.add_0_r; apply (simple_loop_keep _ _ _ _ _ _ _ _ _ _ _ H').
        -- rewrite lookup_set_file, str_eqb_refl; reflexivity.
        -- intros j rr Hj Heq; rewrite simple_filename_eq in Heq.
           apply join_zpad_inj in Heq as [Heq _]; lia.
      * destruct (Hk k m' Hnth) as [s' [t' Hst]]; exists s', t'.
        replace (i + S k)%nat with (S i + k)%nat by lia; exact Hst.
Qed.

(** X3: when [simple_mbox_to_eml] completes, the archive existed, the
    count it prints is the number of its messages, and the file of each
    message [k] (numbered from 1) still holds that message's text: no
    later message of the run replaces it, the [0000k] prefixes being
    distinct. *)
Theorem simple_run_keeps_each_message : forall e as_str p a d fs0 fs n,
  simple_mbox_to_eml e as_str p a d fs0 = SimpleOk fs (Some n) ->
  exists ms, a = Mbox ms /\ n = List.length ms /\
  forall k m, nth_error ms k = Some m ->
    exists s t, msg_get (msg_subject m) (lit "No_Subject") = HStr s /\
      as_str m = Flattened t /\
      lookup_file fs (join d (simple_filename (S k) s)) = Some t.
Proof.
  intros e as_str p a d fs0 fs n H; unfold simple_mbox_to_eml in H.
  destruct (mkdir_exist_ok e fs0 d) as [fs1|]; [|discriminate].
  destruct (open_mbox e p a fs1) as [[ms fs2]|] eqn:O; [|discriminate].
  destruct (simple_loop e as_str d ms 1 None fs2) as [fs3 [l|]|ex fs3] eqn:E;
    try discriminate.
  injection H as -> ->.
  apply simple_loop_ok in E as [Hl Hk].
  assert (Hms : ms <> []) by (intros ->; discriminate).
  exists ms; split; [|split].
  - unfold open_mbox in O; destruct a.
    + destruct (path_exists fs1 p); [discriminate|].
      destruct (can_open e p); [|discriminate].
      injection O as <- _; contradiction.
    + discriminate.
    + injection O as -> _; reflexivity.
  - destruct ms; simpl in Hl; [discriminate|injection Hl as ->; simpl; lia].
  - exact Hk.
Qed.

Lemma simple_run_keeps_each_message_witness :
  exists fs n,
    simple_mbox_to_eml demo_env msg_flat (lit "in.mbox")
      (Mbox [demo_msg "Hello" "a"; demo_msg "Hello" "b"])
      demo_dir demo_fs_empty = SimpleOk fs (Some n) /\ n = 2%nat.
Proof.
  destruct (simple_mbox_to_eml demo_env msg_flat (lit "in.mbox")
              (Mbox [demo_msg "Hello" "a"; demo_msg "Hello" "b"])
              demo_dir demo_fs_empty) as [fs [n|]|ex fs] eqn:E.
  - exists fs, n; split; [reflexivity|].
    destruct (simple_run_keeps_each_message _ _ _ _ _ _ _ _ E) as [ms [Ha [Hn _]]].
    injection Ha as <-; exact Hn.
  - vm_compute in E; discriminate.
  - vm_compute in E; discriminate.
Defined.

Lemma mkdir_some_dir e fs d fs1 : mkdir_exist_ok e fs d = Some fs1 -> In d (dirs fs1).
Proof.
  unfold mkdir_exist_ok.
  destruct (existsb (str_eqb d) (dirs fs)) eqn:E.
  - intros [=<-]; apply existsb_exists in E as [q [Hq Heq]].
    apply str_eqb_eq in Heq; subst; exact Hq.
  - destruct (path_exists fs d); [discriminate|].
    destruct (can_mkdir e d); [|discriminate].
    intros [=<-]; left; reflexivity.
Qed.

(** X4: on an archive with no messages [simple_mbox_to_eml] never
    completes.  For an existing empty archive: either the output
    directory cannot be made, or it is made, no file is touched and the
    final [print] raises [UnboundLocalError] on [i].  For a missing
    archive the run raises too; when it gets as far as the final [print],
    [mailbox.mbox] has created the archive as an empty file and that is
    the only file written. *)
Theorem simple_empty_archive_raises : forall e as_str p d fs0,
  (simple_mbox_to_eml e as_str p (Mbox []) d fs0 = SimpleRaised MkdirError fs0 \/
   exists fs1, simple_mbox_to_eml e as_str p (Mbox []) d fs0 = SimpleRaised UnboundLocalError fs1 /\
     In d (dirs fs1) /\ files fs1 = files fs0) /\
  exists ex fs1, simple_mbox_to_eml e as_str p ArchiveMissing d fs0 = SimpleRaised ex fs1 /\
    (ex = UnboundLocalError ->
       In d (dirs fs1) /\ lookup_file fs1 p = Some [] /\
       forall q, q <> p -> lookup_file fs1 q = lookup_file fs0 q).
Proof.
  intros e as_str p d fs0; unfold simple_mbox_to_eml.
  destruct (mkdir_exist_ok e fs0 d) as [fs1|] eqn:M.
  2:{ split; [left; reflexivity|]. exists MkdirError, fs0; split; [reflexivity|discriminate]. }
  split.
  - right; exists fs1; simpl; split; [reflexivity|split].
    + apply (mkdir_some_dir e fs0), M.
    + apply (proj1 (mkdir_spec e fs0 d fs1 M)).
  - unfold open_mbox.
    destruct (path_exists fs1 p).
    { exists MboxError, fs1; split; [reflexivity|discriminate]. }
    destruct (can_open e p).
    2:{ exists MboxError, fs1; split; [reflexivity|discriminate]. }
    exists UnboundLocalError, (set_file fs1 p []); simpl; split; [reflexivity|].
    intros _; split; [|split].
    + unfold set_file; simpl. apply (mkdir_some_dir e fs0), M.
    + rewrite lookup_set_file, str_eqb_refl; reflexivity.
    + intros q Hq; rewrite lookup_set_file.
      destruct (str_eqb p q) eqn:E; [apply str_eqb_eq in E; congruence|].
      unfold lookup_file; rewrite (proj1 (mkdir_spec e fs0 d fs1 M)); reflexivity.
Qed.

(** ** Step 1 of the GUI run *)


Lemma gui_convert_loop_keep e decode d ms : forall i fs fs' q t,
  gui_convert_loop e decode d ms i fs = GuiDone fs' ->
  lookup_file fs q = Some t ->
  (forall j r, (i <= j)%nat -> q <> join d (zpad 5 j ++ 95 :: r)) ->
  lookup_file fs' q = Some t.
Proof.
  induction ms as [|m r IH]; intros i fs fs' q t H Hq Hfar; simpl in H.
  - injection H as <-; exact Hq.
  - destruct (can_open e _); [|discriminate].
    destruct (msg_flat m) as [text|w]; [|discriminate].
    apply (IH _ _ _ q t H).
    + rewrite lookup_set_file.
      match goal with |- context [str_eqb ?p q] => destruct (str_eqb p q) eqn:E end;
        [|exact Hq].
      apply str_eqb_eq in E; exfalso; rewrite <- E in Hfar; eapply Hfar; [apply le_n|reflexivity].
    + intros j rr Hj; apply Hfar; lia.
Qed.

Lemma gui_convert_loop_done e decode d ms : forall i fs fs',
  gui_convert_loop e decode d ms i fs = GuiDone fs' ->
  forall k m, nth_error ms k = Some m ->
    exists t, msg_flat m = Flattened t /\
      lookup_file fs' (join d (gui_file_name decode (i + k) m)) = Some t.
Proof.
  induction ms as [|m r IH]; intros i fs fs' H; [intros [|k]; discriminate|].
  simpl in H.
  destruct (can_open e _); [|discriminate].
  destruct (msg_flat m) as [text|w] eqn:Ht; [|discriminate].
  intros [|k] m' Hnth; simpl in Hnth.
  - injection Hnth as <-; exists text; split; [exact Ht|].
    rewrite Nat.add_0_r; apply (gui_convert_loop_keep _ _ _ _ _ _ _ _ _ H).
    + rewrite lookup_set_file; unfold gui_file_name; simpl app; rewrite str_eqb_refl; reflexivity.
    + intros j rr Hj Heq; unfold gui_file_name in Heq.
      apply join_zpad_inj in Heq as [Heq _]; lia.
  - destruct (IH _ _ _ H k m' Hnth) as [t Hk]; exists t.
    replace (i + S k)%nat with (S i + k)%nat by lia; exact Hk.
Qed.

(** X5: when step 1 of the GUI run completes, every message [k] (numbered
    from 1) was serialized and its file [all_eml/k_subject.eml] (index
    padded to five digits) holds its text: within one run no message
    overwrites another. *)
Theorem gui_convert_keeps_each_message : forall e decode d ms fs0 fs,
  gui_convert e decode d ms fs0 = GuiDone fs ->
  forall k m, nth_error ms k = Some m ->
    exists t, msg_flat m = Flattened t /\
      lookup_file fs (join (join d (lit "all_eml")) (gui_file_name decode (S k) m)) = Some t.
Proof.
  intros e decode d ms fs0 fs H; unfold gui_convert in H.
  destruct (mkdir_exist_ok e fs0 d) as [fs1|]; [|discriminate].
  destruct (mkdir_exist_ok e fs1 (join d (lit "all_eml"))) as [fs2|]; [|discriminate].
  apply (gui_convert_loop_done _ _ _ _ _ _ _ H).
Qed.

Lemma gui_convert_keeps_each_message_witness :
  exists fs t,
    gui_convert demo_env plain_decode demo_dir [demo_msg "Hello" "a"; demo_msg "Hello" "b"]
      demo_fs_empty = GuiDone fs /\
    nth_error [demo_msg "Hello" "a"; demo_msg "Hello" "b"] 0 = Some (demo_msg "Hello" "a") /\
    msg_flat (demo_msg "Hello" "a") = Flattened t /\
    lookup_file fs (join (join demo_dir (lit "all_eml"))
                      (gui_file_name plain_decode 1 (demo_msg "Hello" "a"))) = Some t.
Proof.
  destruct (gui_convert demo_env plain_decode demo_dir [demo_msg "Hello" "a"; demo_msg "Hello" "b"]
              demo_fs_empty) as [fs|fs|fs] eqn:E;
    [vm_compute in E; discriminate|vm_compute in E; discriminate|].
  destruct (gui_convert_keeps_each_message _ _ _ _ _ _ E 0 (demo_msg "Hello" "a") eq_refl)
    as [t [Ht Hl]].
  exists fs, t; split; [reflexivity|split; [reflexivity|split; [exact Ht|exact Hl]]].
Defined.

Lemma enum_last_spec {A} (xs : list A) : forall i last,
  enum_last xs i last =
  match xs with [] => last | _ => Some (i + List.length xs - 1)%nat end.
Proof.
  induction xs as [|x r IH]; intros i last; simpl; [reflexivity|].
  rewrite IH; destruct r; simpl; f_equal; lia.
Qed.

(** X6: [total = i] in the GUI run fails ([i] unbound) exactly when the
    archive has no messages; otherwise [total] is the number of messages,
    the count written to the instructions and the verification script. *)
Theorem gui_total_count : forall ms,
  (gui_total ms = None <-> ms = []) /\
  (ms <> [] -> gui_total ms = Some (List.length ms)).
Proof.
  intros ms; unfold gui_total; rewrite enum_last_spec.
  destruct ms as [|m r]; simpl; split; try split; intros H;
    try reflexivity; try discriminate; try congruence.
Qed.

(** ** Steps 2 and 3 of the GUI run *)

Lemma insert_by_size_perm f l : Permutation (insert_by_size f l) (f :: l).
Proof.
  induction l as [|g r IH]; simpl; [reflexivity|].
  destruct (fsize f <? fsize g)%N; [reflexivity|].
  rewrite IH; apply perm_swap.
Qed.

Lemma insert_by_size_hd f a l :
  HdRel (fun x y => (fsize x <= fsize y)%N) a l -> (fsize a <= fsize f)%N ->
  HdRel (fun x y => (fsize x <= fsize y)%N) a (insert_by_size f l).
Proof.
  destruct l as [|g r]; simpl; intros H Ha; [constructor; exact Ha|].
  destruct (fsize f <? fsize g)%N; constructor; [exact Ha|inversion H; assumption].
Qed.

Lemma insert_by_size_sorted f l :
  Sorted (fun x y => (fsize x <= fsize y)%N) l ->
  Sorted (fun x y => (fsize x <= fsize y)%N) (insert_by_size f l).
Proof.
  induction l as [|g r IH]; simpl; intros H; [repeat constructor|].
  destruct (fsize f <? fsize g)%N eqn:E.
  - apply N.ltb_lt in E; constructor; [exact H|constructor; lia].
  - apply N.ltb_ge in E; inversion H as [|? ? Hr Hhd]; subst.
    constructor; [apply IH, Hr|apply insert_by_size_hd; assumption].
Qed.

Lemma sorted_size_le a l :
  Sorted (fun x y => (fsize x <= fsize y)%N) (a :: l) ->
  forall g, In g l -> (fsize a <= fsize g)%N.
Proof.
  intros H; apply Sorted_extends in H; [|intros x y z; simpl; lia].
  intros g Hg; rewrite Forall_forall in H; apply H, Hg.
Qed.

Lemma filter_none {A} (f : A -> bool) l :
  (forall x, In x l -> f x = false) -> filter f l = [].
Proof.
  induction l as [|x r IH]; intros H; simpl; [reflexivity|].
  rewrite (H x (or_introl eq_refl)); apply IH; intros y Hy; apply H; right; exact Hy.
Qed.


Lemma filter_insert_same s f l :
  Sorted (fun x y => (fsize x <= fsize y)%N) l -> fsize f = s ->
  filter (size_is s) (insert_by_size f l) = filter (size_is s) l ++ [f].
Proof.
  induction l as [|g r IH]; intros H Hf.
  - simpl; unfold size_is; rewrite Hf, N.eqb_refl; reflexivity.
  - cbn [insert_by_size]; destruct (fsize f <? fsize g)%N eqn:E.
    + apply N.ltb_lt in E.
      assert (Hr : filter (size_is s) (g :: r) = []).
      { apply filter_none; intros x [<-|Hx]; unfold size_is;
          apply N.eqb_neq; [lia|].
        pose proof (sorted_size_le g r H x Hx); lia. }
      change (filter (size_is s) (f :: g :: r)) with
        (if size_is s f then f :: filter (size_is s) (g :: r) else filter (size_is s) (g :: r)).
      rewrite Hr; unfold size_is at 1; rewrite Hf, N.eqb_refl; reflexivity.
    + inversion H; subst; simpl.
      destruct (size_is (fsize f) g); simpl; rewrite IH; auto.
Qed.

Lemma filter_insert_other s f l :
  fsize f <> s -> filter (size_is s) (insert_by_size f l) = filter (size_is s) l.
Proof.
  intros Hf; induction l as [|g r IH]; simpl.
  - unfold size_is at 1; replace (fsize f =? s)%N with false
      by (symmetry; apply N.eqb_neq, Hf); reflexivity.
  - destruct (fsize f <? fsize g)%N; simpl.
    + unfold size_is at 1; replace (fsize f =? s)%N with false
        by (symmetry; apply N.eqb_neq, Hf); reflexivity.
    + destruct (size_is s g); rewrite IH; reflexivity.
Qed.

Lemma sort_fold_spec l : forall acc,
  Sorted (fun x y => (fsize x <= fsize y)%N) acc ->
  let r := fold_left (fun acc f => insert_by_size f acc) l acc in
  Permutation r (acc ++ l) /\ Sorted (fun x y => (fsize x <= fsize y)%N) r /\
  forall s, filter (size_is s) r = filter (size_is s) acc ++ filter (size_is s) l.
Proof.
  induction l as [|f l IH]; intros acc Hacc; simpl.
  - rewrite app_nil_r; split; [reflexivity|split; [exact Hacc|]].
    intros s; rewrite app_nil_r; reflexivity.
  - destruct (IH (insert_by_size f acc) (insert_by_size_sorted f acc Hacc)) as [Hp [Hs Hf]].
    split; [|split; [exact Hs|]].
    + rewrite Hp, insert_by_size_perm.
      change (f :: acc ++ l) with ((f :: acc) ++ l).
      rewrite (Permutation_cons_append acc f), <- app_assoc; reflexivity.
    + intros s; rewrite Hf.
      try change (filter (size_is s) (f :: l)) with
        (if size_is s f then f :: filter (size_is s) l else filter (size_is s) l).
      destruct (N.eq_dec (fsize f) s) as [Hfs|Hfs].
      * rewrite filter_insert_same by assumption.
        replace (size_is s f) with true
          by (unfold size_is; rewrite Hfs, N.eqb_refl; reflexivity).
        rewrite <- app_assoc; reflexivity.
      * rewrite filter_insert_other by assumption.
        replace (size_is s f) with false
          by (unfold size_is; symmetry; apply N.eqb_neq, Hfs); reflexivity.
Qed.

(** X7: [sorted(eml_dir.glob(...), key=st_size)] lists every file once,
    in non-decreasing size, and files of equal size keep the order of the
    directory listing (the sort is stable). *)
Theorem sort_by_size_spec : forall l,
  Permutation (sort_by_size l) l /\
  Sorted (fun x y => (fsize x <= fsize y)%N) (sort_by_size l) /\
  (forall s, filter (size_is s) (sort_by_size l) = filter (size_is s) l).
Proof.
  intros l; destruct (sort_fold_spec l [] (Sorted_nil _)) as [Hp [Hs Hf]].
  split; [exact Hp|split; [exact Hs|intros s; apply Hf]].
Qed.

(** X8: sorting then partitioning: the batches, read in order, list every
    file of the listing exactly once, in non-decreasing size. *)
Theorem gui_batches_sorted_cover : forall bs mb l,
  Permutation (List.concat (gui_batches bs mb (sort_by_size l))) l /\
  Sorted (fun x y => (fsize x <= fsize y)%N) (List.concat (gui_batches bs mb (sort_by_size l))).
Proof.
  intros bs mb l; unfold gui_batches, make_batches; rewrite partition_loop_concat; simpl.
  destruct (sort_fold_spec l [] (Sorted_nil _)) as [Hp [Hs _]].
  split; [exact Hp|exact Hs].
Qed.

Lemma lit_batch_ : lit "batch_" = [98; 97; 116; 99; 104; 95].
Proof. reflexivity. Qed.

Lemma batch_dirs_In out bs : forall idx p,
  In p (batch_dirs out bs idx) -> exists j b, (idx <= j)%nat /\ p = join out (batch_dir_name j b).
Proof.
  induction bs as [|b r IH]; intros idx p H; simpl in H; [contradiction|].
  destruct H as [<-|H]; [exists idx, b; split; [lia|reflexivity]|].
  apply IH in H as [j [b' [Hj ->]]]; exists j, b'; split; [lia|reflexivity].
Qed.

Lemma join_batch_dir_name_inj out i j b c :
  join out (batch_dir_name i b) = join out (batch_dir_name j c) -> i = j.
Proof.
  unfold batch_dir_name; rewrite !join_eq, lit_batch_; simpl starts_with_slash.
  intros H; apply app_inv_head in H.
  change ([98; 97; 116; 99; 104; 95] ++ zpad 3 i ++ [95] ++ py_str_nat (List.length b) ++ lit "msg")
    with ([98; 97; 116; 99; 104; 95] ++ (zpad 3 i ++ 95 :: (py_str_nat (List.length b) ++ lit "msg"))) in H.
  change ([98; 97; 116; 99; 104; 95] ++ zpad 3 j ++ [95] ++ py_str_nat (List.length c) ++ lit "msg")
    with ([98; 97; 116; 99; 104; 95] ++ (zpad 3 j ++ 95 :: (py_str_nat (List.length c) ++ lit "msg"))) in H.
  apply app_inv_head, zpad_sep_inj in H as [-> _]; reflexivity.
Qed.

Lemma sort_by_size_perm l : Permutation (sort_by_size l) l.
Proof. exact (proj1 (sort_fold_spec l [] (Sorted_nil _))). Qed.

(** C3 (as the code behaves): when every converted file is larger than
    the byte limit of [mb] MiB (a single oversized message, say), the
    sorted listing starts with such a file, and at that file [cur] is
    still empty but [cur_size+sz > maxb], so line 156 closes the empty
    batch: the batches start with an empty one (and step 3 makes the
    folder [batch_001_0msg] for it); each file is then alone in its
    batch. *)
Theorem gui_batches_empty_first_batch : forall bs mb l,
  l <> [] -> Forall (fun f => mb * 1024 * 1024 < Z.of_N (fsize f)) l ->
  gui_batches bs mb (sort_by_size l) = [] :: map (fun f => [f]) (sort_by_size l).
Proof.
  intros bs mb l Hne Hall; unfold gui_batches, make_batches.
  assert (Hp := sort_by_size_perm l).
  assert (Hall' : Forall (fun f => mb * 1024 * 1024 < Z.of_N (fsize f)) (sort_by_size l)).
  { apply Forall_forall; intros f Hf.
    apply (proj1 (Forall_forall _ l) Hall), (Permutation_in _ Hp), Hf. }
  destruct (sort_by_size l) as [|f r].
  - apply Permutation_nil in Hp; congruence.
  - rewrite partition_loop_all_over by (lia || exact Hall'); reflexivity.
Qed.

Lemma gui_batches_empty_first_batch_witness :
  ([big_file] <> [] /\ Forall (fun f => 1 * 1024 * 1024 < Z.of_N (fsize f)) [big_file]) /\
  gui_batches 50 1 (sort_by_size [big_file]) = [[]; [big_file]].
Proof.
  assert (H1 : [big_file] <> []) by discriminate.
  assert (H2 : Forall (fun f => 1 * 1024 * 1024 < Z.of_N (fsize f)) [big_file])
    by (repeat constructor; simpl; lia).
  split; [split; [exact H1|exact H2]|].
  exact (gui_batches_empty_first_batch 50 1 [big_file] H1 H2).
Defined.

(** X9: step 3 gives each batch its own folder: the paths
    [out_dir/batch_idx_nmsg] of the batches are pairwise distinct (the
    three-digit index differs), one per batch. *)
Theorem batch_dirs_distinct : forall out batches,
  NoDup (batch_dirs out batches 1) /\ List.length (batch_dirs out batches 1) = List.length batches.
Proof.
  intros out batches; generalize 1%nat as idx.
  induction batches as [|b r IH]; intros idx; simpl; [split; [constructor|reflexivity]|].
  destruct (IH (S idx)) as [Hnd Hlen]; split; [|rewrite Hlen; reflexivity].
  constructor; [|exact Hnd].
  intros Hin; apply batch_dirs_In in Hin as [j [c [Hj Heq]]].
  apply join_batch_dir_name_inj in Heq; lia.
Qed.

(** ** Sanitizers, further *)


Lemma no_double_space_app_r a s : no_double_space (a ++ s) -> no_double_space s.
Proof. intros H l1 l2 E; apply (H (a ++ l1) l2); rewrite E, app_assoc; reflexivity. Qed.

Lemma no_double_space_app_l s b : no_double_space (s ++ b) -> no_double_space s.
Proof. intros H l1 l2 E; apply (H l1 (l2 ++ b)); rewrite E, <- app_assoc; reflexivity. Qed.

Lemma no_double_space_rev s : no_double_space s -> no_double_space (rev s).
Proof.
  intros H l1 l2 E; apply (H (rev l2) (rev l1)).
  rewrite <- (rev_involutive s), E, rev_app_distr; simpl; rewrite <- !app_assoc; reflexivity.
Qed.

Lemma lstrip_suffix s : exists a, s = a ++ lstrip s.
Proof.
  induction s as [|x r [a Ha]]; simpl; [exists []; reflexivity|].
  destruct (is_space x); [exists (x :: a); simpl; rewrite <- Ha; reflexivity|exists []; reflexivity].
Qed.

Lemma no_double_space_py_strip s : no_double_space s -> no_double_space (py_strip s).
Proof.
  intros H; unfold py_strip; apply no_double_space_rev.
  destruct (lstrip_suffix (rev (lstrip s))) as [a Ha]; apply (no_double_space_app_r a).
  rewrite <- Ha; apply no_double_space_rev.
  destruct (lstrip_suffix s) as [b Hb]; apply (no_double_space_app_r b); rewrite <- Hb; exact H.
Qed.

Lemma no_double_space_slice s k : no_double_space s -> no_double_space (py_slice_to s k).
Proof.
  intros H; unfold py_slice_to; destruct (0 <=? k);
    match goal with |- context [firstn ?n s] => apply (no_double_space_app_l _ (skipn n s)) end;
    rewrite firstn_skipn; exact H.
Qed.

Lemma collapse_ws_true_head s c r : collapse_ws true s = c :: r -> is_space c = false.
Proof.
  induction s as [|x s IH]; simpl; [discriminate|].
  destruct (is_space x) eqn:E; [exact IH|intros [=<- _]; exact E].
Qed.

Lemma collapse_ws_no_double b s : no_double_space (collapse_ws b s).
Proof.
  revert b; induction s as [|x s IH]; intros b; simpl.
  - intros [|y l1] l2; discriminate.
  - destruct (is_space x) eqn:E; [destruct b; [apply IH|]|];
      intros [|y l1] l2 H; simpl in H; injection H; intros; subst;
      first
        [ match goal with
          | Hx : collapse_ws true s = 32 :: _ |- _ =>
              apply collapse_ws_true_head in Hx; vm_compute in Hx; discriminate
          end
        | match goal with
          | Hx : collapse_ws ?bb s = l1 ++ _ |- _ => exact (IH bb l1 l2 Hx)
          end
        | vm_compute in E; discriminate ].
Qed.

Lemma collapse_ws_space b s c : In c (collapse_ws b s) -> is_space c = true -> c = 32.
Proof.
  revert b; induction s as [|x s IH]; intros b; simpl; [contradiction|].
  destruct (is_space x) eqn:E; [destruct b|]; simpl.
  - apply IH.
  - intros [<-|H] Hc; [reflexivity|eapply IH; eassumption].
  - intros [<-|H] Hc; [congruence|eapply IH; eassumption].
Qed.

Lemma lstrip_head s c r : lstrip s = c :: r -> is_space c = false.
Proof.
  induction s as [|x s IH]; simpl; [discriminate|].
  destruct (is_space x) eqn:E; [exact IH|intros [=<- _]; exact E].
Qed.

Lemma lstrip_snoc l c : is_space c = false -> lstrip (l ++ [c]) = lstrip l ++ [c].
Proof.
  intros Hc; induction l as [|x l IH]; simpl; [rewrite Hc; reflexivity|].
  destruct (is_space x); [exact IH|reflexivity].
Qed.

Lemma py_strip_head s c r : py_strip s = c :: r -> is_space c = false.
Proof.
  unfold py_strip; destruct (lstrip s) as [|c0 r0] eqn:E; [discriminate|].
  change (rev (c0 :: r0)) with (rev r0 ++ [c0]).
  rewrite lstrip_snoc by (apply (lstrip_head s c0 r0), E).
  rewrite rev_app_distr; intros [=<- _]; apply (lstrip_head s c0 r0), E.
Qed.

Lemma py_strip_last s l c : py_strip s = l ++ [c] -> is_space c = false.
Proof.
  unfold py_strip; intros H.
  apply (f_equal (@rev Z)) in H; rewrite rev_involutive, rev_app_distr in H.
  apply (lstrip_head (rev (lstrip s)) c (rev l)), H.
Qed.

Lemma firstn_head {A} n (l : list A) c r : firstn n l = c :: r -> exists r', l = c :: r'.
Proof. destruct n, l; simpl; intros H; try discriminate; injection H as <- _; eauto. Qed.

Lemma py_slice_to_head {A} (s : list A) k c r : py_slice_to s k = c :: r -> exists r', s = c :: r'.
Proof. unfold py_slice_to; destruct (0 <=? k); apply firstn_head. Qed.

(** X10: the GUI's [sanitize] normalises white space: the only white space
    left is the plain space, no two spaces are adjacent, and the name does
    not start with white space (it can end with a space when the cut at
    [max_len] falls after one). *)
Theorem gui_sanitize_spaces : forall t ml,
  (forall c, In c (gui_sanitize t ml) -> is_space c = true -> c = 32) /\
  no_double_space (gui_sanitize t ml) /\
  (forall c r, gui_sanitize t ml = c :: r -> is_space c = false).
Proof.
  intros t ml; unfold gui_sanitize.
  set (t2 := py_strip _).
  destruct (py_slice_to t2 ml) as [|x r] eqn:Hs.
  - split; [|split].
    + intros c Hc; simpl in Hc; repeat destruct Hc as [<-|Hc]; try contradiction;
        intros H; vm_compute in H; discriminate.
    + intros l1 l2 H.
      assert (Hin : In 32 (lit "No_Subject")) by (rewrite H; apply in_or_app; right; left; reflexivity).
      simpl in Hin; repeat destruct Hin as [Hin|Hin]; try discriminate; contradiction.
    + intros c r H; injection H as <- _; reflexivity.
  - split; [|split].
    + intros c Hc Hsp; rewrite <- Hs in Hc.
      apply In_py_slice_to, In_py_strip in Hc; exact (collapse_ws_space _ _ _ Hc Hsp).
    + rewrite <- Hs; apply no_double_space_slice, no_double_space_py_strip, collapse_ws_no_double.
    + intros c r' [=<- _].
      apply py_slice_to_head in Hs as [r2 Hr2]; unfold t2 in Hr2.
      exact (py_strip_head _ x r2 Hr2).
Qed.

Lemma filter_all {A} (f : A -> bool) l : (forall x, In x l -> f x = true) -> filter f l = l.
Proof.
  induction l as [|x r IH]; intros H; simpl; [reflexivity|].
  rewrite (H x (or_introl eq_refl)), IH; [reflexivity|].
  intros y Hy; apply H; right; exact Hy.
Qed.

Lemma lstrip_id s : (forall c r, s = c :: r -> is_space c = false) -> lstrip s = s.
Proof. destruct s as [|c r]; simpl; intros H; [reflexivity|rewrite (H c r eq_refl); reflexivity]. Qed.

Lemma py_strip_id s :
  (forall c r, s = c :: r -> is_space c = false) ->
  (forall l c, s = l ++ [c] -> is_space c = false) ->
  py_strip s = s.
Proof.
  intros Hh Hl; unfold py_strip; rewrite (lstrip_id s Hh), lstrip_id; [apply rev_involutive|].
  intros c r H; apply (Hl (rev r)); rewrite <- (rev_involutive s), H; reflexivity.
Qed.

(** A name with none of the replaced or removed characters, no white space
    at either end and within the length limit is returned unchanged. *)
Lemma sanitize_filename_fixed x ml :
  x <> [] ->
  (forall c, In c x -> is_cli_bad c = false /\ is_ctrl c = false) ->
  Z.of_nat (List.length x) <= ml ->
  (forall c r, x = c :: r -> is_space c = false) ->
  (forall l c, x = l ++ [c] -> is_space c = false) ->
  sanitize_filename x ml = x.
Proof.
  intros Hne Hc Hlen Hh Hl; unfold sanitize_filename; cbv zeta.
  rewrite (map_ext_in _ (fun c => c)) by (intros c Hin; rewrite (proj1 (Hc c Hin)); reflexivity).
  rewrite map_id, filter_all by (intros c Hin; rewrite (proj2 (Hc c Hin)); reflexivity).
  rewrite py_strip_id by assumption.
  replace (Z.of_nat (List.length x) >? ml) with false by (symmetry; rewrite Z.gtb_ltb; apply Z.ltb_ge; lia).
  destruct x; [contradiction|reflexivity].
Qed.

Lemma sanitize_filename_shape s ml : 13 <= ml ->
  let r := sanitize_filename s ml in
  r <> [] /\
  (forall c, In c r -> is_cli_bad c = false /\ is_ctrl c = false) /\
  Z.of_nat (List.length r) <= ml /\
  (forall c r', r = c :: r' -> is_space c = false) /\
  (forall l c, r = l ++ [c] -> is_space c = false).
Proof.
  intros Hml; unfold sanitize_filename; cbv zeta.
  set (f3 := py_strip _).
  assert (Hf3 : forall c, In c f3 -> is_cli_bad c = false /\ is_ctrl c = false).
  { intros c Hc; apply In_py_strip, filter_In in Hc as [Hc Hctl].
    apply in_map_iff in Hc as [x [<- _]].
    apply negb_true_iff in Hctl.
    destruct (is_cli_bad x) eqn:Hx; split; auto. }
  destruct (Z.of_nat (List.length f3) >? ml) eqn:Hlen.
  - set (p := py_slice_to f3 (ml - 4)).
    assert (Hp : Z.of_nat (List.length p) <= ml - 4) by (apply length_py_slice_to_nonneg; lia).
    assert (Hne : p ++ lit "..." <> []) by (destruct p; discriminate).
    destruct (p ++ lit "...") as [|x r] eqn:Hr; [contradiction|].
    rewrite <- Hr; split; [rewrite Hr; discriminate|split; [|split; [|split]]].
    + intros c Hc; apply in_app_or in Hc as [Hc|Hc].
      * apply Hf3, (In_py_slice_to _ _ (ml - 4)), Hc.
      * revert c Hc; in_lit_cases.
    + rewrite length_app; simpl List.length; lia.
    + intros c r' H; unfold p in H.
      destruct (py_slice_to f3 (ml - 4)) as [|y p'] eqn:Ep.
      * injection H as <- _; reflexivity.
      * injection H as <- _.
        apply py_slice_to_head in Ep as [r2 Hr2]; unfold f3 in Hr2.
        exact (py_strip_head _ y r2 Hr2).
    + intros l c H; change (lit "...") with ([46; 46] ++ [46]) in H.
      rewrite app_assoc in H; apply app_inj_tail in H as [_ <-]; reflexivity.
  - rewrite Z.gtb_ltb in Hlen; apply Z.ltb_ge in Hlen.
    destruct f3 as [|x r] eqn:Hr.
    + split; [discriminate|split; [|split; [simpl; lia|split]]].
      * in_lit_cases.
      * intros c r' [=<- _]; reflexivity.
      * intros l c H; change (lit "unnamed_email") with (lit "unnamed_emai" ++ [108]) in H.
        apply app_inj_tail in H as [_ <-]; reflexivity.
    + split; [discriminate|split; [exact Hf3|split; [exact Hlen|split]]].
      * intros c r' H; rewrite H in Hr; unfold f3 in Hr; exact (py_strip_head _ c r' Hr).
      * intros l c H; rewrite H in Hr; unfold f3 in Hr; exact (py_strip_last _ l c Hr).
Qed.

(** X11: with a length limit of at least 13 (the length of the placeholder
    [unnamed_email]), sanitizing a sanitized name changes nothing. *)
Theorem sanitize_filename_idempotent : forall s ml,
  13 <= ml -> sanitize_filename (sanitize_filename s ml) ml = sanitize_filename s ml.
Proof.
  intros s ml Hml.
  destruct (sanitize_filename_shape s ml Hml) as [Hne [Hc [Hlen [Hh Hl]]]].
  apply sanitize_filename_fixed; assumption.
Qed.

Lemma sanitize_filename_idempotent_witness :
  13 <= 100 /\
  sanitize_filename (sanitize_filename (lit " Re: a/b ") 100) 100 =
  sanitize_filename (lit " Re: a/b ") 100.
Proof. split; [lia|apply sanitize_filename_idempotent; lia]. Defined.

(** ** Sender address extraction *)

Lemma span_spec p s : forall a b,
  span p s = (a, b) -> s = a ++ b /\ (forall c, In c a -> p c = true).
Proof.
  induction s as [|x r IH]; intros a b H; simpl in H.
  - injection H as <- <-; split; [reflexivity|contradiction].
  - destruct (p x) eqn:E.
    + destruct (span p r) as [a' b'] eqn:Hs; injection H as <- <-.
      destruct (IH a' b' eq_refl) as [-> Ha]; split; [reflexivity|].
      intros c [<-|Hc]; [exact E|apply Ha, Hc].
    + injection H as <- <-; split; [reflexivity|contradiction].
Qed.

Lemma email_search_cons uw x r :
  email_search uw (x :: r) =
  match span (email_class uw) (x :: r) with
  | ((_ :: _) as run, at_sign :: rest) =>
      if at_sign =? 64 then
        match fst (span (email_class uw) rest) with
        | [] => email_search uw r
        | run2 => Some (run ++ [64] ++ run2)
        end
      else email_search uw r
  | _ => email_search uw r
  end.
Proof. reflexivity. Qed.

Lemma email_search_some uw s : forall m,
  email_search uw s = Some m ->
  exists pre post a b, s = pre ++ m ++ post /\ m = a ++ 64 :: b /\
    a <> [] /\ b <> [] /\ (forall c, In c (a ++ b) -> email_class uw c = true).
Proof.
  induction s as [|x r IH]; intros m H; [discriminate|].
  assert (Hrec : email_search uw r = Some m ->
           exists pre post a b, x :: r = pre ++ m ++ post /\ m = a ++ 64 :: b /\
             a <> [] /\ b <> [] /\ (forall c, In c (a ++ b) -> email_class uw c = true)).
  { intros Hr; destruct (IH m Hr) as [pre [post Hp]]; exists (x :: pre), post.
    destruct Hp as [a [b [-> Hp]]]; exists a, b; split; [reflexivity|exact Hp]. }
  rewrite email_search_cons in H.
  destruct (span (email_class uw) (x :: r)) as [run rest] eqn:Hs.
  destruct run as [|c0 run']; [exact (Hrec H)|].
  destruct rest as [|at_sign rest]; [exact (Hrec H)|].
  destruct (at_sign =? 64) eqn:Ha; [|exact (Hrec H)].
  destruct (span (email_class uw) rest) as [run2 rest2] eqn:Hs2; simpl fst in H.
  destruct run2 as [|c2 run2']; [exact (Hrec H)|].
  injection H as <-; apply Z.eqb_eq in Ha; subst at_sign.
  apply span_spec in Hs as [Hs Hrun]; apply span_spec in Hs2 as [-> Hrun2].
  exists [], rest2, (c0 :: run'), (c2 :: run2').
  split; [rewrite Hs; simpl; rewrite <- !app_assoc; reflexivity|].
  split; [reflexivity|split; [discriminate|split; [discriminate|]]].
  intros c Hc; apply in_app_or in Hc as [Hc|Hc]; [apply Hrun, Hc|apply Hrun2, Hc].
Qed.

(** X12: the address taken from the sender is a piece of the sender of the
    form [local@domain], both parts non-empty runs of word characters, dots
    and hyphens; a sender without [@] is used whole. *)
Theorem sender_name_spec : forall uw sender,
  (sender_name uw sender = sender /\ email_search uw sender = None) \/
  exists pre post a b, sender = pre ++ sender_name uw sender ++ post /\
    sender_name uw sender = a ++ 64 :: b /\ a <> [] /\ b <> [] /\
    (forall c, In c (a ++ b) -> email_class uw c = true).
Proof.
  intros uw sender; unfold sender_name.
  destruct (email_search uw sender) as [m|] eqn:E; [right|left; auto].
  apply email_search_some, E.
Qed.

Lemma email_search_no_at uw s : ~ In 64 s -> email_search uw s = None.
Proof.
  intros Hs; destruct (email_search uw s) as [m|] eqn:E; [|reflexivity].
  apply email_search_some in E as [pre [post [a [b [-> [-> _]]]]]].
  exfalso; apply Hs; rewrite !in_app_iff; simpl; auto.
Qed.

(** X13: a [From] header without [@] is used as it is (before sanitizing). *)
Theorem sender_name_no_at : forall uw sender,
  ~ In 64 sender -> sender_name uw sender = sender.
Proof.
  intros uw sender H; unfold sender_name; rewrite (email_search_no_at uw sender H); reflexivity.
Qed.

Lemma sender_name_no_at_witness :
  ~ In 64 (lit "Unknown Sender") /\ sender_name (fun _ => false) (lit "Unknown Sender") = lit "Unknown Sender".
Proof.
  assert (H : ~ In 64 (lit "Unknown Sender")).
  { intros Hin; simpl in Hin; repeat destruct Hin as [Hin|Hin]; try discriminate; contradiction. }
  split; [exact H|apply (sender_name_no_at _ _ H)].
Defined.

(** ** The conversion run, further *)

Lemma convert_loop_keeps_lookup e d ms : forall index st q t,
  lookup_file (st_fs st) q = Some t ->
  lookup_file (st_fs (convert_loop e d ms index st)) q = Some t.
Proof.
  induction ms as [|m r IH]; intros index st q t H; simpl; [exact H|].
  apply IH, convert_step_keeps_lookup, H.
Qed.


Lemma convert_loop_all_ok e d ms : forall index st,
  (forall p, can_open e p = true) -> Forall converts_cleanly ms ->
  let st' := convert_loop e d ms index st in
  st_ok st' = (st_ok st + List.length ms)%nat /\ st_err st' = st_err st /\
  exists added, st_opened st' = st_opened st ++ added /\
    Forall2 (fun p m => exists t, msg_flat m = Flattened t /\ lookup_file (st_fs st') p = Some t)
      added ms.
Proof.
  induction ms as [|m r IH]; intros index st Hopen Hall; simpl.
  - split; [lia|split; [reflexivity|]]; exists []; split; [rewrite app_nil_r; reflexivity|constructor].
  - inversion Hall as [|? ? [s [f [t [Hs [Hf Ht]]]]] Hr]; subst.
    destruct (convert_step_success e d index m st s f t Hs Hf Hopen Ht) as [p [_ E]].
    rewrite E.
    destruct (IH (S index) (convert_step e d index m st) Hopen Hr)
      as [Hok [Herr [added [Hop Hf2]]]]; rewrite E in Hok, Herr, Hop, Hf2; simpl in *.
    split; [lia|split; [exact Herr|]].
    exists (p :: added); split; [rewrite Hop, <- app_assoc; reflexivity|].
    constructor; [|exact Hf2].
    exists t; split; [exact Ht|].
    apply convert_loop_keeps_lookup; simpl.
    rewrite lookup_set_file, str_eqb_refl; reflexivity.
Qed.

(** X14: when the output directory can be made, every path can be opened and
    every message has [str] headers and serializes, [convert_mbox_to_eml]
    reports (n, 0, n) for n messages, opens one new path per message, and
    at the end the path opened for the k-th message holds its text. *)
Theorem convert_all_succeed : forall e ms d fs0,
  mkdir_exist_ok e fs0 d <> None -> (forall p, can_open e p = true) ->
  Forall converts_cleanly ms ->
  exists fs opened,
    convert_mbox_to_eml e (Mbox ms) d fs0 =
      Report (List.length ms) 0 (List.length ms) fs opened /\
    Forall2 (fun p m => exists t, msg_flat m = Flattened t /\ lookup_file fs p = Some t)
      opened ms.
Proof.
  intros e ms d fs0 Hmk Hopen Hall; unfold convert_mbox_to_eml.
  destruct (mkdir_exist_ok e fs0 d) as [fs1|]; [|congruence].
  set (st0 := {| st_fs := fs1; st_ok := 0; st_err := 0; st_total := 0; st_opened := [] |}).
  destruct (convert_loop_all_ok e d ms 1 st0 Hopen Hall) as [Hok [Herr [added [Hop Hf]]]].
  destruct (convert_loop_counts e d ms 1 st0) as [_ Ht].
  simpl in Hok, Herr, Hop.
  rewrite Hok, Herr, Hop.
  replace (st_total (convert_loop e d ms 1 st0)) with (List.length ms)
    by (rewrite Ht; destruct ms; simpl; lia).
  exists (st_fs (convert_loop e d ms 1 st0)), added; split; [reflexivity|exact Hf].
Qed.

Lemma convert_all_succeed_witness :
  exists fs opened,
    convert_mbox_to_eml demo_env (Mbox [demo_msg "Hello" "a"; demo_msg "Hello" "b"])
      demo_dir demo_fs_empty =
      Report (List.length [demo_msg "Hello" "a"; demo_msg "Hello" "b"]) 0
             (List.length [demo_msg "Hello" "a"; demo_msg "Hello" "b"]) fs opened /\
    Forall2 (fun p m => exists t, msg_flat m = Flattened t /\ lookup_file fs p = Some t)
      opened [demo_msg "Hello" "a"; demo_msg "Hello" "b"].
Proof.
  apply convert_all_succeed.
  - vm_compute; discriminate.
  - intros p; reflexivity.
  - apply Forall_forall; intros m [<-|[<-|[]]]; unfold converts_cleanly;
      do 3 eexists; (split; [reflexivity|split; reflexivity]).
Defined.

(** X15: when the output path exists but is not a directory, both tools stop
    before reading anything: [convert_mbox_to_eml] raises [OSError] (for an
    existing archive) and [main] exits with 2; the GUI reports the error
    and returns; [simple_mbox_to_eml] raises.  No file is touched. *)
Theorem output_path_is_file : forall e d fs0 txt,
  In (d, txt) (files fs0) -> ~ In d (dirs fs0) ->
  (forall a, a <> ArchiveMissing ->
     convert_mbox_to_eml e a d fs0 = Raised OSError fs0 /\
     main_exit (convert_mbox_to_eml e a d fs0) = 2) /\
  (forall decode ms, gui_convert e decode d ms fs0 = GuiStopped fs0) /\
  (forall as_str p a, simple_mbox_to_eml e as_str p a d fs0 = SimpleRaised MkdirError fs0).
Proof.
  intros e d fs0 txt Hf Hd.
  assert (M : mkdir_exist_ok e fs0 d = None).
  { unfold mkdir_exist_ok.
    replace (existsb (str_eqb d) (dirs fs0)) with false.
    2:{ symmetry; apply not_true_iff_false; intros H.
        apply existsb_exists in H as [q [Hq Heq]]; apply str_eqb_eq in Heq; subst q.
        contradiction. }
    replace (path_exists fs0 d) with true; [reflexivity|].
    symmetry; apply path_exists_In, (In_files_entries _ _ txt), Hf. }
  split; [|split].
  - intros a Ha; unfold convert_mbox_to_eml.
    destruct a; [contradiction| |]; rewrite M; split; reflexivity.
  - intros decode ms; unfold gui_convert; rewrite M; reflexivity.
  - intros as_str p a; unfold simple_mbox_to_eml; rewrite M; reflexivity.
Qed.

Lemma output_path_is_file_witness :
  In (demo_dir, lit "x") (files {| dirs := []; files := [(demo_dir, lit "x")] |}) /\
  ~ In demo_dir (dirs {| dirs := []; files := [(demo_dir, lit "x")] |}) /\
  convert_mbox_to_eml demo_env (Mbox []) demo_dir {| dirs := []; files := [(demo_dir, lit "x")] |}
    = Raised OSError {| dirs := []; files := [(demo_dir, lit "x")] |}.
Proof.
  assert (H1 : In (demo_dir, lit "x") (files {| dirs := []; files := [(demo_dir, lit "x")] |}))
    by (left; reflexivity).
  assert (H2 : ~ In demo_dir (dirs {| dirs := []; files := [(demo_dir, lit "x")] |}))
    by (simpl; tauto).
  split; [exact H1|split; [exact H2|]].
  apply (proj1 (output_path_is_file demo_env _ _ _ H1 H2) (Mbox [])); discriminate.
Defined.
